(** * fcpw: the CSG combinator [CsgNode] (core/csg_node.inl)

    A shallow embedding of [CsgNode<DIM>] and a verification of its
    bounding volume, ray-intersection merge and closest-point combination.

    Conventions of the embedding.
    - C++ [float] is an abstract type [F] with the operations the code uses
      ([<], [==], [+], [*], unary minus, conversion from [int], [maxFloat]);
      nothing is assumed about them unless a theorem asks for
      [FloatStrict] (laws of [<] that hold of every float) or [FloatOrder]
      (the order laws of floats that are not NaN).  The rationals give an
      executable instance.
    - C++ [int] is [Z]; [(int)v.size()] is [Z.of_nat (length v)] (vectors
      are far shorter than 2^31 elements).
    - [std::vector<T>] is [list T]; [v[i]] is [vec_at v i], which is
      undefined behaviour out of range and yields [Undefined].
    - Reference parameters that a method writes are returned next to the
      method's result. *)

From Stdlib Require Import ZArith QArith Bool List Lia Sorted Permutation.
Import ListNotations.

Set Implicit Arguments.
Local Open Scope Z_scope.

(** ** Outcomes *)

(** The outcome of running code that may read a vector out of range, or
    whose loop is run with a bounded number of iterations. *)
Inductive Res (A : Type) : Type :=
| Ok (a : A)
| Undefined          (* undefined behaviour: out-of-range vector access *)
| OutOfFuel.         (* the iteration bound of a loop was too small *)

Arguments Ok {A} a.
Arguments Undefined {A}.
Arguments OutOfFuel {A}.

Definition bind {A B : Type} (m : Res A) (k : A -> Res B) : Res B :=
  match m with
  | Ok a => k a
  | Undefined => Undefined
  | OutOfFuel => OutOfFuel
  end.

Notation "x <- m ;; k" := (bind m (fun x => k))
  (at level 61, m at next level, right associativity).
Notation "' p <- m ;; k" := (bind m (fun p => k))
  (at level 61, p pattern, m at next level, right associativity).

(** [v[i]] for a [std::vector] and an [int] index. *)
Definition vec_at {A : Type} (v : list A) (i : Z) : Res A :=
  if i <? 0 then Undefined
  else match nth_error v (Z.to_nat i) with
       | Some a => Ok a
       | None => Undefined
       end.

(** ** Floats *)

Class FloatOps (F : Type) : Type := {
  flt : F -> F -> bool;        (* a < b *)
  feqb : F -> F -> bool;       (* a == b *)
  fadd : F -> F -> F;          (* a + b *)
  fmul : F -> F -> F;          (* a * b *)
  fopp : F -> F;               (* -a *)
  fofZ : Z -> F;               (* the float of integer value k *)
  maxFloat : F                 (* the sentinel, declared in another file *)
}.

(** The laws of [<] that hold of all floats, NaN included. *)
Class FloatStrict (F : Type) {FO : FloatOps F} : Prop := {
  flt_irrefl : forall x : F, flt x x = false;
  flt_asym : forall x y : F, flt x y = true -> flt y x = false
}.

Arguments FloatStrict F {FO}.

(** The order laws of floats that are not NaN: "not above" is
    transitive. *)
Class FloatOrder (F : Type) {FO : FloatOps F} : Prop := {
  float_strict :: FloatStrict F;
  fle_trans : forall x y z : F,
      flt y x = false -> flt z y = false -> flt z x = false
}.

Arguments FloatOrder F {FO}.

Section Floats.
Context {F : Type} {FO : FloatOps F}.

(** [std::min(a, b)]: [(b < a) ? b : a]. *)
Definition fmin (a b : F) : F := if flt b a then b else a.

(** [a <= b] read as "not [b < a]". *)
Definition fle (a b : F) : bool := negb (flt b a).
End Floats.

(** ** Enumerations *)

Module BooleanOperation.
Inductive t : Set := Union | Intersection | Difference | None.

Definition eqb (a b : t) : bool :=
  match a, b with
  | Union, Union | Intersection, Intersection
  | Difference, Difference | None, None => true
  | _, _ => false
  end.

End BooleanOperation.

Module DistanceInfo.
Inductive t : Set := Exact | Bounded.

Definition eqb (a b : t) : bool :=
  match a, b with
  | Exact, Exact | Bounded, Bounded => true
  | _, _ => false
  end.

End DistanceInfo.

(** ** Data model *)

Section Data.
Context {F : Type}.

(** [Vector<DIM>]: the list of its DIM components. *)
Definition Vector : Type := list F.

(** Modelled from the spec: [Ray<DIM>], whose declaration is not in
    csg_node.inl, has an origin, a direction and the mutable bound
    [tMax]. *)
Record Ray : Type := mkRay {
  o : Vector;
  dir : Vector;
  tMax : F
}.

(** Modelled from the spec: [BoundingSphere<DIM>], whose declaration is
    not in csg_node.inl, has a centre and a squared radius. *)
Record BoundingSphere : Type := mkBoundingSphere {
  c : Vector;
  r2 : F
}.

(** Modelled from the spec: [Interaction<DIM>], whose declaration is not
    in csg_node.inl, records the distance [d], the normal [n], the [sign]
    and whether the distance is exact. *)
Record Interaction : Type := mkInteraction {
  d : F;
  n : Vector;
  sign : Z;
  distanceInfo : DistanceInfo.t
}.

(** [BoundingBox<DIM>]: the public flag [isTight] and the geometric part
    [bounds], whose representation [B] is a parameter. *)
Record BoundingBox (B : Type) : Type := mkBoundingBox {
  bounds : B;
  isTight : bool
}.
End Data.

Arguments Vector : clear implicits.
Arguments Ray : clear implicits.
Arguments BoundingSphere : clear implicits.
Arguments Interaction : clear implicits.

(** Field updates. *)
Definition set_tMax {F} (r : Ray F) (t : F) : Ray F :=
  mkRay (o r) (dir r) t.
Definition set_r2 {F} (s : BoundingSphere F) (x : F) : BoundingSphere F :=
  mkBoundingSphere (c s) x.
Definition set_n {F} (i : Interaction F) (v : Vector F) : Interaction F :=
  mkInteraction (d i) v (sign i) (distanceInfo i).
Definition set_sign {F} (i : Interaction F) (s : Z) : Interaction F :=
  mkInteraction (d i) (n i) s (distanceInfo i).
Definition set_distanceInfo {F} (i : Interaction F) (x : DistanceInfo.t)
  : Interaction F :=
  mkInteraction (d i) (n i) (sign i) x.
Definition set_isTight {B} (b : BoundingBox B) (t : bool) : BoundingBox B :=
  mkBoundingBox (bounds b) t.

(** [v *= k] for a vector [v] and an [int] [k]. *)
Definition vscale {F} {FO : FloatOps F} (v : Vector F) (k : Z) : Vector F :=
  map (fun x => fmul x (fofZ k)) v.

(** ** Operations declared in other files

    The operations of [BoundingBox] and [Interaction] that csg_node.inl
    calls; their code is not in csg_node.inl and they are taken as
    parameters. *)
Class Externals (F : Type) : Type := {
  B : Type;
  (* BoundingBox<DIM> box(flag) *)
  newBox : bool -> BoundingBox B;
  (* a.expandToInclude(b), returning the updated a *)
  expandToInclude : BoundingBox B -> BoundingBox B -> BoundingBox B;
  (* b.extent() *)
  extent : BoundingBox B -> Vector F;
  (* v.squaredNorm() *)
  squaredNorm : Vector F -> F;
  (* b.volume() *)
  volume : BoundingBox B -> F;
  (* b.centroid() *)
  box_centroid : BoundingBox B -> Vector F;
  (* b.intersect(r, tMin, tMax); the two outputs are not used *)
  box_intersect : BoundingBox B -> Ray F -> bool;
  (* b.overlaps(s, d2Min, d2Max); the two outputs are not used *)
  box_overlaps : BoundingBox B -> BoundingSphere F -> bool;
  (* i.signedDistance(x) *)
  signedDistance : Interaction F -> Vector F -> F;
  (* Interaction<DIM> i; *)
  newInteraction : Interaction F
}.

(** Modelled from the spec: [compareInteractions], whose code is not in
    csg_node.inl, orders interactions by ascending distance [d]. *)
Definition compareInteractions {F} {FO : FloatOps F}
    (i j : Interaction F) : bool :=
  flt (d i) (d j).

(** [std::merge(first1, last1, first2, last2, out, comp)]: an element of
    the second range is taken only when it compares below the current
    element of the first. *)
Fixpoint std_merge {A : Type} (comp : A -> A -> bool) (l1 : list A)
  : list A -> list A :=
  fix merge_second (l2 : list A) : list A :=
    match l1, l2 with
    | [], _ => l2
    | _, [] => l1
    | a1 :: l1', a2 :: l2' =>
        if comp a2 a1 then a2 :: merge_second l2'
        else a1 :: std_merge comp l1' l2
    end.

(** ** The Primitive interface

    [Primitive<DIM>] is the abstract interface of the children of a node;
    a value of [Primitive.t] is one object with its virtual methods. *)
Module Primitive.
Section Interface.
Context {F : Type} {FO : FloatOps F} {EX : Externals F}.

Record t : Type := mk {
  boundingBox : BoundingBox B;
  centroid : Vector F;
  surfaceArea : F;
  signedVolume : F;
  (* int intersect(Ray& r, vector<Interaction>& is, bool checkOcclusion,
                   bool countHits) *)
  intersect : Ray F -> list (Interaction F) -> bool -> bool ->
              Res (Ray F * list (Interaction F) * Z);
  (* bool findClosestPoint(BoundingSphere& s, Interaction& i) *)
  findClosestPoint : BoundingSphere F -> Interaction F ->
                     Res (BoundingSphere F * Interaction F * bool)
}.
End Interface.
Arguments t F {EX}.
End Primitive.

(** ** CsgNode *)

Module CsgNode.
Section Node.
Context {F : Type} {FO : FloatOps F} {EX : Externals F}.

Local Abbreviation Union := BooleanOperation.Union.
Local Abbreviation Intersection := BooleanOperation.Intersection.
Local Abbreviation Difference := BooleanOperation.Difference.
Local Abbreviation Exact := DistanceInfo.Exact.
Local Abbreviation Bounded := DistanceInfo.Bounded.
Local Infix "==" := BooleanOperation.eqb (at level 70, no associativity).

Record t : Type := mk {
  left : Primitive.t F;
  right : Primitive.t F;
  operation : BooleanOperation.t;
  box : BoundingBox B
}.

Definition set_box (node : t) (b : BoundingBox B) : t :=
  mk (left node) (right node) (operation node) b.

(** [void CsgNode::computeBoundingBox()], returning the updated node. *)
Definition computeBoundingBox (node : t) : t :=
  let box := box node in
  if operation node == Intersection then
    let leftBox := Primitive.boundingBox (left node) in
    let rightBox := Primitive.boundingBox (right node) in
    set_box node
      (expandToInclude box
         (if flt (squaredNorm (extent leftBox))
                 (squaredNorm (extent rightBox))
          then leftBox else rightBox))
  else if operation node == Difference then
    set_box node (expandToInclude box (Primitive.boundingBox (left node)))
  else
    let leftBox := Primitive.boundingBox (left node) in
    let rightBox := Primitive.boundingBox (right node) in
    let box := expandToInclude box leftBox in
    let box := expandToInclude box rightBox in
    let box := set_isTight box (isTight leftBox && isTight rightBox) in
    set_box node box.

(** The constructor [CsgNode(left_, right_, operation_)]; children are
    objects, so the fatal null check cannot fire. *)
Definition CsgNode (left_ right_ : Primitive.t F)
    (operation_ : BooleanOperation.t) : t :=
  computeBoundingBox (mk left_ right_ operation_ (newBox false)).

Definition boundingBox (node : t) : BoundingBox B := box node.

Definition centroid (node : t) : Vector F := box_centroid (box node).

Definition surfaceArea (node : t) : F :=
  fadd (Primitive.surfaceArea (left node))
       (Primitive.surfaceArea (right node)).

(** The value of the local [boxVolume] after line 70. *)
Definition boxVolume (node : t) : F :=
  let boxVolume := volume (box node) in
  if feqb boxVolume (fofZ 0) then maxFloat else boxVolume.

Definition signedVolume (node : t) : F :=
  let boxVolume := boxVolume node in
  if operation node == Intersection then
    fmin boxVolume (fmin (Primitive.signedVolume (left node))
                         (Primitive.signedVolume (right node)))
  else if operation node == Difference then
    fmin boxVolume (Primitive.signedVolume (left node))
  else
    fmin boxVolume (fadd (Primitive.signedVolume (left node))
                         (Primitive.signedVolume (right node))).

(** *** computeInteractions *)

(** The lambda [addInteraction]. *)
Definition addInteraction (operation : BooleanOperation.t)
    (before after : Z) : bool :=
  if (operation == Intersection) || (operation == Difference) then
    ((before =? 1) && (after =? 2)) || ((before =? 2) && (after =? 1))
  else
    (* operation is union *)
    ((before =? 0) && (after =? 1)) || ((before =? 1) && (after =? 0)).

(** The local variables the loop of [computeInteractions] updates. *)
Record LoopState : Type := mkLoopState {
  nLeft : Z;
  nRight : Z;
  isLeftIntervalStart : bool;
  isRightIntervalStart : bool;
  counter : Z;
  is_ : list (Interaction F)      (* the output vector [is] *)
}.

(** One pass through the loop body ends in [break] or at the end of the
    body. *)
Inductive Step : Type :=
  | Break
  | Next (st : LoopState).

Section Loop.
Variable operation : BooleanOperation.t.
Variables isLeft isRight : list (Interaction F).

Definition hitsLeft : Z := Z.of_nat (length isLeft).
Definition hitsRight : Z := Z.of_nat (length isRight).

(** [nLeft != hitsLeft || nRight != hitsRight] *)
Definition loop_cond (st : LoopState) : bool :=
  negb (nLeft st =? hitsLeft) || negb (nRight st =? hitsRight).

(** [nRight == hitsRight ||
    (nLeft != hitsLeft && isLeft[nLeft].d < isRight[nRight].d)],
    evaluated left to right with short circuits. *)
Definition left_is_closer (st : LoopState) : Res bool :=
  if nRight st =? hitsRight then Ok true
  else if negb (nLeft st =? hitsLeft) then
    l <- vec_at isLeft (nLeft st) ;;
    r <- vec_at isRight (nRight st) ;;
    Ok (flt (d l) (d r))
  else Ok false.

(** Lines 108 to 128. *)
Definition loop_body (st : LoopState) : Res Step :=
  if (operation == Intersection) &&
     ((nLeft st =? hitsLeft) || (nRight st =? hitsRight)) then Ok Break
  else if (operation == Difference) && (nLeft st =? hitsLeft) then
    Ok Break
  else
    let counterBefore := counter st in
    closer <- left_is_closer st ;;
    if closer then
      (* left interaction is closer than right interaction *)
      let counter :=
        counter st + (if isLeftIntervalStart st then 1 else -1) in
      let isLeftIntervalStart := negb (isLeftIntervalStart st) in
      is' <- (if addInteraction operation counterBefore counter then
               l <- vec_at isLeft (nLeft st) ;; Ok (is_ st ++ [l])
             else Ok (is_ st)) ;;
      Ok (Next (mkLoopState (nLeft st + 1) (nRight st)
                  isLeftIntervalStart (isRightIntervalStart st)
                  counter is'))
    else
      (* right interaction is closer than left interaction *)
      let counter :=
        counter st + (if isRightIntervalStart st then 1 else -1) in
      let isRightIntervalStart := negb (isRightIntervalStart st) in
      is' <- (if addInteraction operation counterBefore counter then
               r <- vec_at isRight (nRight st) ;;
               (* the element just appended is [is[is.size() - 1]] *)
               Ok (is_ st ++
                   [if operation == Difference
                    then set_n r (vscale (n r) (-1)) (* flip normal *)
                    else r])
             else Ok (is_ st)) ;;
      Ok (Next (mkLoopState (nLeft st) (nRight st + 1)
                  (isLeftIntervalStart st) isRightIntervalStart
                  counter is')).

(** The [while] loop, run for at most [fuel] iterations. *)
Fixpoint while_loop (fuel : nat) (st : LoopState) : Res LoopState :=
  if loop_cond st then
    match fuel with
    | O => OutOfFuel
    | S fuel' =>
        step <- loop_body st ;;
        match step with
        | Break => Ok st
        | Next st' => while_loop fuel' st'
        end
    end
  else Ok st.

(** The state at the loop's entry (lines 87 to 95). *)
Definition loop_init (is' : list (Interaction F)) : LoopState :=
  let nLeft := 0 in
  let nRight := 0 in
  let isLeftIntervalStart := Z.rem hitsLeft 2 =? 0 in
  let isRightIntervalStart :=
    Z.rem hitsRight 2 =? (if operation == Difference then 1 else 0) in
  let counter := 0 in
  let counter := if negb isLeftIntervalStart then counter + 1
                 else counter in
  let counter := if negb isRightIntervalStart then counter + 1
                 else counter in
  mkLoopState nLeft nRight isLeftIntervalStart isRightIntervalStart
              counter is'.

(** [computeInteractions(isLeft, isRight, is)], returning [is].  Every
    iteration advances [nLeft] or [nRight], so one iteration per
    element of the two inputs is enough. *)
Definition computeInteractions (is' : list (Interaction F))
  : Res (list (Interaction F)) :=
  st <- while_loop (length isLeft + length isRight) (loop_init is') ;;
  Ok (is_ st).
End Loop.

(** *** intersect *)

(** Lines 188 to 190: [hits = (int)is.size();
    if (!countHits) r.tMax = is[0].d;]. *)
Definition shrink_tMax (r : Ray F) (is' : list (Interaction F))
    (countHits : bool) : Res (Ray F * list (Interaction F) * Z) :=
  let hits := Z.of_nat (length is') in
  if negb countHits then
    i0 <- vec_at is' 0 ;;
    Ok (set_tMax r (d i0), is', hits)
  else Ok (r, is', hits).

(** [int CsgNode::intersect(r, is, checkOcclusion, countHits)], returning
    the ray, the vector [is] and the hit count. *)
Definition intersect (node : t) (r : Ray F) (is' : list (Interaction F))
    (checkOcclusion countHits : bool)
  : Res (Ray F * list (Interaction F) * Z) :=
  let hits := 0 in
  let is' := @nil (Interaction F) in                       (* is.clear() *)
  if box_intersect (box node) r then
    (* perform intersection query for left child *)
    let rLeft := r in
    ' (_, isLeft, hitsLeft) <-
        Primitive.intersect (left node) rLeft [] false true ;;
    if (hitsLeft =? 0) && ((operation node == Intersection) ||
                           (operation node == Difference)) then
      Ok (r, is', 0)
    else
      (* perform intersection query for right child *)
      let rRight := r in
      ' (_, isRight, hitsRight) <-
          Primitive.intersect (right node) rRight [] false true ;;
      if (hitsLeft =? 0) && (hitsRight =? 0) then Ok (r, is', 0)
      else if (hitsLeft >? 0) && (hitsRight >? 0) then
        if operation node == BooleanOperation.None then
          (* merge the left and right sorted interaction lists *)
          let is' := std_merge compareInteractions isLeft isRight in
          shrink_tMax r is' countHits
        else
          is' <- computeInteractions (operation node) isLeft isRight is' ;;
          shrink_tMax r is' countHits
      else if hitsLeft >? 0 then
        if operation node == Intersection then Ok (r, is', 0)
        else shrink_tMax r isLeft countHits
      else if hitsRight >? 0 then shrink_tMax r isRight countHits
      else shrink_tMax r is' countHits
  else Ok (r, is', hits).

(** *** findClosestPoint *)

(** Lines 271 to 273: [s.r2 = std::min(s.r2, i.d*i.d); notFound = false]. *)
Definition shrink_r2 (s : BoundingSphere F) (i : Interaction F)
  : Res (BoundingSphere F * Interaction F * bool) :=
  Ok (set_r2 s (fmin (r2 s) (fmul (d i) (d i))), i, true).

(** Lines 221 to 254: both children found a closest point. *)
Definition combine (operation : BooleanOperation.t) (s : BoundingSphere F)
    (iLeft iRight : Interaction F) : Interaction F :=
  (* compute signed distances *)
  let sdLeft := signedDistance iLeft (c s) in
  let sdRight := signedDistance iRight (c s) in
  let info := if DistanceInfo.eqb (distanceInfo iLeft) Exact &&
                 DistanceInfo.eqb (distanceInfo iRight) Exact
              then Exact else Bounded in
  if operation == Union then
    let i := if flt sdLeft sdRight then iLeft else iRight in
    set_distanceInfo i
      (if DistanceInfo.eqb info Exact &&
          flt (fofZ 0) sdLeft && flt (fofZ 0) sdRight
       then Exact else Bounded)
  else if operation == Intersection then
    let i := if flt sdRight sdLeft then iLeft else iRight in
    set_distanceInfo i
      (if DistanceInfo.eqb info Exact &&
          flt sdLeft (fofZ 0) && flt sdRight (fofZ 0)
       then Exact else Bounded)
  else if operation == Difference then
    let iRight := set_n iRight (vscale (n iRight) (-1)) in
    let iRight := set_sign iRight (sign iRight * -1) in
    let i := if flt (fopp sdRight) sdLeft then iLeft else iRight in
    set_distanceInfo i
      (if DistanceInfo.eqb info Exact &&
          flt sdLeft (fofZ 0) && flt (fofZ 0) sdRight
       then Exact else Bounded)
  else
    (* set the closer of the two interactions *)
    if flt (d iLeft) (d iRight) then iLeft else iRight.

(** [bool CsgNode::findClosestPoint(s, i)], returning the sphere, the
    interaction and the result. *)
Definition findClosestPoint (node : t) (s : BoundingSphere F)
    (i : Interaction F) : Res (BoundingSphere F * Interaction F * bool) :=
  if box_overlaps (box node) s then
    (* perform closest point query on left child *)
    let iLeft := newInteraction in
    let sLeft := s in
    ' (_, iLeft, foundLeft) <-
        Primitive.findClosestPoint (left node) sLeft iLeft ;;
    if negb foundLeft && ((operation node == Intersection) ||
                          (operation node == Difference)) then
      Ok (s, i, false)
    else
      (* perform closest point query on right child *)
      let iRight := newInteraction in
      let sRight := s in
      ' (_, iRight, foundRight) <-
          Primitive.findClosestPoint (right node) sRight iRight ;;
      if negb foundLeft && negb foundRight then Ok (s, i, false)
      else if foundLeft && foundRight then
        shrink_r2 s (combine (operation node) s iLeft iRight)
      else if foundLeft then
        if operation node == Intersection then Ok (s, i, false)
        else shrink_r2 s iLeft
      else if foundRight then shrink_r2 s iRight
      else shrink_r2 s i
  else Ok (s, i, false).

(** A node is itself a [Primitive]: nodes nest. *)
Definition asPrimitive (node : t) : Primitive.t F :=
  Primitive.mk (boundingBox node) (centroid node) (surfaceArea node)
               (signedVolume node) (intersect node)
               (findClosestPoint node).
End Node.
Arguments t F {EX}.
Arguments LoopState : clear implicits.
Arguments Step : clear implicits.
End CsgNode.

(** ** An executable instance: scenes on a line, rational floats *)

Definition Qltb (x y : Q) : bool := negb (Qle_bool y x).

(** Finite floats are rationals; [maxFloat] is FLT_MAX = 2^128 - 2^104. *)
#[export] Instance Q_FloatOps : FloatOps Q := {|
  flt := Qltb;
  feqb := Qeq_bool;
  fadd := Qplus;
  fmul := Qmult;
  fopp := Qopp;
  fofZ := inject_Z;
  maxFloat := inject_Z (2 ^ 128 - 2 ^ 104)
|}.

Module Line.
Local Open Scope Q_scope.

(** Modelled from the spec: in one dimension an axis-aligned box is an
    interval [(pMin, pMax)]. *)
Definition Bounds : Type := (Q * Q)%type.

Definition pMin (b : BoundingBox Bounds) : Q := fst (bounds b).
Definition pMax (b : BoundingBox Bounds) : Q := snd (bounds b).

Definition Qmin' (x y : Q) : Q := if Qltb y x then y else x.
Definition Qmax' (x y : Q) : Q := if Qltb x y then y else x.

(** Modelled from the spec: an empty box, which every expansion
    replaces. *)
Definition newBox (tight : bool) : BoundingBox Bounds :=
  mkBoundingBox (maxFloat, - maxFloat) tight.

(** Modelled from the spec: the smallest interval holding both. *)
Definition expandToInclude (a b : BoundingBox Bounds)
  : BoundingBox Bounds :=
  mkBoundingBox (Qmin' (pMin a) (pMin b), Qmax' (pMax a) (pMax b))
                (isTight a).

Definition extent (b : BoundingBox Bounds) : Vector Q :=
  [pMax b - pMin b].

Definition squaredNorm (v : Vector Q) : Q :=
  fold_left (fun acc x => acc + x * x) v 0.

Definition volume (b : BoundingBox Bounds) : Q := pMax b - pMin b.

Definition box_centroid (b : BoundingBox Bounds) : Vector Q :=
  [(pMin b + pMax b) * (1 # 2)].

(** Modelled from the spec: the ray covers the points from its origin
    to its origin plus [tMax] times its direction; it meets the box
    when that segment meets the interval. *)
Definition box_intersect (b : BoundingBox Bounds) (r : Ray Q) : bool :=
  let x0 := hd 0 (o r) in
  let x1 := x0 + tMax r * hd 0 (dir r) in
  Qle_bool (Qmin' x0 x1) (pMax b) && Qle_bool (pMin b) (Qmax' x0 x1).

(** Modelled from the spec: the sphere meets the box when the squared
    distance from its centre to the interval is at most [r2]. *)
Definition box_overlaps (b : BoundingBox Bounds) (s : BoundingSphere Q)
  : bool :=
  let x := hd 0 (c s) in
  let gap := Qmax' 0 (Qmax' (pMin b - x) (x - pMax b)) in
  Qle_bool (gap * gap) (r2 s).

(** Modelled from the spec: the signed distance is the distance with
    the sign of the inside/outside indicator (negative inside). *)
Definition signedDistance (i : Interaction Q) (x : Vector Q) : Q :=
  inject_Z (sign i) * d i.

Definition newInteraction : Interaction Q :=
  mkInteraction maxFloat [0] 0%Z DistanceInfo.Exact.

#[global] Instance externals : Externals Q :=
  @Build_Externals Q Bounds newBox expandToInclude extent squaredNorm
    volume box_centroid box_intersect box_overlaps signedDistance
    newInteraction.

(** A primitive with known, hand-computed answers: it occupies the
    interval [(lo, hi)] and reports the given interaction list and
    closest point to every query. *)
Definition canned (lo hi : Q) (vol : Q) (hits : Z)
    (is' : list (Interaction Q)) (found : bool) (i : Interaction Q)
  : Primitive.t Q :=
  Primitive.mk (mkBoundingBox (lo, hi) true)
               [(lo + hi) * (1 # 2)] 2 vol
               (fun r _ _ _ => Ok (r, is', hits))
               (fun s _ => Ok (s, i, found)).

(** A crossing at distance [x] with normal [nx]. *)
Definition hit (x : Z) (nx : Z) : Interaction Q :=
  mkInteraction (inject_Z x) [inject_Z nx] 1%Z DistanceInfo.Exact.

(** A ray from the origin of the line in the positive direction. *)
Definition ray (tmax : Z) : Ray Q := mkRay [0] [1] (inject_Z tmax).

(** A solid interval hit by [ray] at the distances [a] and [b]. *)
Definition solid (a b : Z) : Primitive.t Q :=
  canned (inject_Z a) (inject_Z b) (inject_Z (b - a)) 2
         [hit a (-1); hit b 1] true (hit a (-1)).

(** The solids 1..4 and 2..5 of the specification's example, combined. *)
Definition overlapping (operation : BooleanOperation.t) : CsgNode.t Q :=
  CsgNode.CsgNode (solid 1 4) (solid 2 5) operation.

(** A query sphere centred at the origin of the line. *)
Definition sphere (radius2 : Z) : BoundingSphere Q :=
  mkBoundingSphere [0] (inject_Z radius2).
End Line.

(** ** The exactness rule as the specification words it

    The table of the closest-point combination, read literally: for a
    union the result is exact when both children are exact, unless both
    signed distances are positive. *)
Section SpecWords.
Context {F : Type} {FO : FloatOps F}.

Definition both_exact (iLeft iRight : Interaction F) : bool :=
  DistanceInfo.eqb (distanceInfo iLeft) DistanceInfo.Exact &&
  DistanceInfo.eqb (distanceInfo iRight) DistanceInfo.Exact.

Definition spec_distanceInfo (operation : BooleanOperation.t)
    (iLeft iRight : Interaction F) (sdLeft sdRight : F)
  : DistanceInfo.t :=
  match operation with
  | BooleanOperation.Union =>
      if both_exact iLeft iRight &&
         negb (flt (fofZ 0) sdLeft && flt (fofZ 0) sdRight)
      then DistanceInfo.Exact else DistanceInfo.Bounded
  | BooleanOperation.Intersection =>
      if both_exact iLeft iRight &&
         flt sdLeft (fofZ 0) && flt sdRight (fofZ 0)
      then DistanceInfo.Exact else DistanceInfo.Bounded
  | BooleanOperation.Difference =>
      if both_exact iLeft iRight &&
         flt sdLeft (fofZ 0) && flt (fofZ 0) sdRight
      then DistanceInfo.Exact else DistanceInfo.Bounded
  | BooleanOperation.None =>
      distanceInfo (if flt (d iLeft) (d iRight) then iLeft else iRight)
  end.

(** A list of interactions is in ascending order of [d] when no element
    is followed by one that compares below it. *)
Fixpoint ascending (l : list (Interaction F)) : bool :=
  match l with
  | a :: (b :: _) as tl => fle (d a) (d b) && ascending tl
  | _ => true
  end.
End SpecWords.

(** ** Vocabulary for the merge loop of [computeInteractions] *)

Section MergeLoopVocabulary.
Context {F : Type} {FO : FloatOps F}.
Variables isLeft isRight : list (Interaction F).

Local Abbreviation hitsLeft := (CsgNode.hitsLeft isLeft).
Local Abbreviation hitsRight := (CsgNode.hitsRight isRight).

(** The two indices stay within the input vectors. *)
Definition in_bounds (st : CsgNode.LoopState F) : Prop :=
  0 <= CsgNode.nLeft st <= hitsLeft /\
  0 <= CsgNode.nRight st <= hitsRight.

(** The inputs not yet consumed. *)
Definition restLeft (st : CsgNode.LoopState F) : list (Interaction F) :=
  skipn (Z.to_nat (CsgNode.nLeft st)) isLeft.
Definition restRight (st : CsgNode.LoopState F) : list (Interaction F) :=
  skipn (Z.to_nat (CsgNode.nRight st)) isRight.

Definition remaining (st : CsgNode.LoopState F) : nat :=
  length (restLeft st) + length (restRight st).

(** What one pass through the body does to the state. *)
Inductive body_step (st : CsgNode.LoopState F)
    : CsgNode.LoopState F -> Prop :=
  | step_left (l : Interaction F) (tl emitted : list (Interaction F)) :
      restLeft st = l :: tl ->
      (restRight st = [] \/
       exists r tr, restRight st = r :: tr /\ flt (d l) (d r) = true) ->
      emitted = [] \/ emitted = [l] ->
      body_step st
        (CsgNode.mkLoopState
           (CsgNode.nLeft st + 1) (CsgNode.nRight st)
           (negb (CsgNode.isLeftIntervalStart st))
           (CsgNode.isRightIntervalStart st)
           (CsgNode.counter st +
            (if CsgNode.isLeftIntervalStart st then 1 else -1))
           (CsgNode.is_ st ++ emitted))
  | step_right (r : Interaction F) (tr emitted : list (Interaction F)) :
      restRight st = r :: tr ->
      (restLeft st = [] \/
       exists l tl, restLeft st = l :: tl /\ flt (d l) (d r) = false) ->
      emitted = [] \/ (exists r', emitted = [r'] /\ d r' = d r) ->
      body_step st
        (CsgNode.mkLoopState
           (CsgNode.nLeft st) (CsgNode.nRight st + 1)
           (CsgNode.isLeftIntervalStart st)
           (negb (CsgNode.isRightIntervalStart st))
           (CsgNode.counter st +
            (if CsgNode.isRightIntervalStart st then 1 else -1))
           (CsgNode.is_ st ++ emitted)).

(** Ascending order of [d] between any two positions of a list. *)
Definition le_d (a b : Interaction F) : Prop := fle (d a) (d b) = true.

(** What has been emitted is in ascending order and not above anything
    still to be consumed. *)
Definition sorted_inv (st : CsgNode.LoopState F) : Prop :=
  StronglySorted le_d (CsgNode.is_ st) /\
  Forall (fun x => Forall (le_d x) (restLeft st) /\
                   Forall (le_d x) (restRight st)) (CsgNode.is_ st).

(** The lists a call of [intersect] can hand to its final step. *)
Definition candidate (operation : BooleanOperation.t)
    (l : list (Interaction F)) : Prop :=
  l = [] \/ l = isLeft \/ l = isRight \/
  l = std_merge compareInteractions isLeft isRight \/
  CsgNode.computeInteractions operation isLeft isRight [] = Ok l.
End MergeLoopVocabulary.

(** ** Vocabulary for the meaning of the merge

    A list of crossings describes a solid along the ray: a position is
    inside the solid when an odd number of crossings lie beyond it. *)

Section MergeMeaning.
Context {F : Type} {FO : FloatOps F}.
Variable operation : BooleanOperation.t.
Variables isLeft isRight : list (Interaction F).

Definition is_difference : bool :=
  BooleanOperation.eqb operation BooleanOperation.Difference.

(** The interaction appended for a right interaction (line 125). *)
Definition flipped (r : Interaction F) : Interaction F :=
  if is_difference then set_n r (vscale (n r) (-1)) else r.

(** The state at the end of a pass through the body that took the left
    interaction [l] (lines 114 to 117). *)
Definition after_left (st : CsgNode.LoopState F) (l : Interaction F)
  : CsgNode.LoopState F :=
  let counter :=
    CsgNode.counter st +
    (if CsgNode.isLeftIntervalStart st then 1 else -1) in
  CsgNode.mkLoopState
    (CsgNode.nLeft st + 1) (CsgNode.nRight st)
    (negb (CsgNode.isLeftIntervalStart st))
    (CsgNode.isRightIntervalStart st) counter
    (CsgNode.is_ st ++
     (if CsgNode.addInteraction operation (CsgNode.counter st) counter
      then [l] else [])).

(** The state at the end of a pass through the body that took the right
    interaction [r] (lines 121 to 127). *)
Definition after_right (st : CsgNode.LoopState F) (r : Interaction F)
  : CsgNode.LoopState F :=
  let counter :=
    CsgNode.counter st +
    (if CsgNode.isRightIntervalStart st then 1 else -1) in
  CsgNode.mkLoopState
    (CsgNode.nLeft st) (CsgNode.nRight st + 1)
    (CsgNode.isLeftIntervalStart st)
    (negb (CsgNode.isRightIntervalStart st)) counter
    (CsgNode.is_ st ++
     (if CsgNode.addInteraction operation (CsgNode.counter st) counter
      then [flipped r] else [])).

(** The two [break] tests (lines 108 and 109). *)
Definition breaks (st : CsgNode.LoopState F) : bool :=
  (BooleanOperation.eqb operation BooleanOperation.Intersection &&
   ((CsgNode.nLeft st =? CsgNode.hitsLeft isLeft) ||
    (CsgNode.nRight st =? CsgNode.hitsRight isRight))) ||
  (is_difference && (CsgNode.nLeft st =? CsgNode.hitsLeft isLeft)).

(** One pass through the body that does not break, with its effect in
    full. *)
Inductive exact_step (st : CsgNode.LoopState F)
    : CsgNode.LoopState F -> Prop :=
  | exact_left (l : Interaction F) (tl : list (Interaction F)) :
      breaks st = false ->
      restLeft isLeft st = l :: tl ->
      (restRight isRight st = [] \/
       exists r tr, restRight isRight st = r :: tr /\
                    flt (d l) (d r) = true) ->
      exact_step st (after_left st l)
  | exact_right (r : Interaction F) (tr : list (Interaction F)) :
      breaks st = false ->
      restRight isRight st = r :: tr ->
      (restLeft isLeft st = [] \/
       exists l tl, restLeft isLeft st = l :: tl /\
                    flt (d l) (d r) = false) ->
      exact_step st (after_right st r).

(** The loop is left when its condition fails or a [break] is taken. *)
Definition at_exit (st : CsgNode.LoopState F) : Prop :=
  CsgNode.loop_cond isLeft isRight st = false \/ breaks st = true.

Definition b2z (b : bool) : Z := if b then 1 else 0.

(** What the flags and the counter stand for: a flag is set when an even
    number of crossings of its list is left (an odd number for the right
    list of a difference), and the counter counts the flags that are not
    set. *)
Definition flags_inv (st : CsgNode.LoopState F) : Prop :=
  CsgNode.isLeftIntervalStart st
    = Nat.even (length (restLeft isLeft st)) /\
  CsgNode.isRightIntervalStart st
    = xorb is_difference (Nat.even (length (restRight isRight st))) /\
  CsgNode.counter st
    = b2z (negb (CsgNode.isLeftIntervalStart st)) +
      b2z (negb (CsgNode.isRightIntervalStart st)).

(** The operation on "inside the left solid" and "inside the right
    solid"; [computeInteractions] treats every other tag as a union. *)
Definition apply_operation (a b : bool) : bool :=
  match operation with
  | BooleanOperation.Intersection => a && b
  | BooleanOperation.Difference => a && negb b
  | _ => a || b
  end.

(** The number of crossings of a list beyond the distance [t]. *)
Definition beyond (t : F) (l : list (Interaction F)) : nat :=
  length (filter (fun x => flt t (d x)) l).

(** An emitted interaction is a left interaction as it is, or a right
    interaction (with its normal negated for a difference). *)
Definition stems_from_inputs (x : Interaction F) : Prop :=
  In x isLeft \/ exists r, In r isRight /\ x = flipped r.

(** The invariant behind the count of emitted crossings, for a choice
    [w] of the crossings that count and the vector [is0] the merge
    starts from: the parity of the emitted crossings that count, together
    with what the crossings that are left will add, is the parity the
    inputs announce. *)
Definition counting_inv (w : Interaction F -> bool)
    (is0 : list (Interaction F)) (st : CsgNode.LoopState F) : Prop :=
  flags_inv st /\
  exists emitted,
    CsgNode.is_ st = is0 ++ emitted /\
    xorb (Nat.odd (length (filter w emitted)))
         (apply_operation
            (Nat.odd (length (filter w (restLeft isLeft st))))
            (Nat.odd (length (filter w (restRight isRight st)))))
    = apply_operation (Nat.odd (length (filter w isLeft)))
                      (Nat.odd (length (filter w isRight))).

(** The invariant behind the origin of the emitted interactions. *)
Definition provenance_inv (is0 : list (Interaction F))
    (st : CsgNode.LoopState F) : Prop :=
  exists emitted,
    CsgNode.is_ st = is0 ++ emitted /\
    Forall stems_from_inputs emitted /\
    Z.of_nat (length emitted) <= CsgNode.nLeft st + CsgNode.nRight st.

(** The states the loop of [computeInteractions] goes through. *)
Inductive reachable (is0 : list (Interaction F))
    : CsgNode.LoopState F -> Prop :=
  | reach_init :
      reachable is0 (CsgNode.loop_init operation isLeft isRight is0)
  | reach_next (st st' : CsgNode.LoopState F) :
      reachable is0 st ->
      CsgNode.loop_cond isLeft isRight st = true ->
      CsgNode.loop_body operation isLeft isRight st
        = Ok (CsgNode.Next st') ->
      reachable is0 st'.
End MergeMeaning.

(** A child answers a query that counts hits with a list in ascending
    order of [d] and the length of that list. *)
Definition answers_sorted {F : Type} {FO : FloatOps F} {EX : Externals F}
    (p : Primitive.t F) : Prop :=
  forall r : Ray F, exists r' out,
    Primitive.intersect p r [] false true
    = Ok (r', out, Z.of_nat (length out)) /\
    ascending out = true.

(** * Verification *)

(** ** Enumerations and vectors *)

Lemma BooleanOperation_eqb_eq (a b : BooleanOperation.t) :
  BooleanOperation.eqb a b = true <-> a = b.
Proof. destruct a, b; simpl; split; congruence. Qed.

Lemma DistanceInfo_eqb_eq (a b : DistanceInfo.t) :
  DistanceInfo.eqb a b = true <-> a = b.
Proof. destruct a, b; simpl; split; congruence. Qed.

Lemma vec_at_in_range {A : Type} (v : list A) (i : Z) :
  0 <= i < Z.of_nat (length v) -> exists a, vec_at v i = Ok a /\
    skipn (Z.to_nat i) v = a :: skipn (Z.to_nat (i + 1)) v.
Proof.
  intros Hi. unfold vec_at.
  destruct (Z.ltb_spec i 0); [lia|].
  destruct (nth_error v (Z.to_nat i)) as [a|] eqn:E.
  - exists a. split; [reflexivity|].
    replace (Z.to_nat (i + 1)) with (S (Z.to_nat i)) by lia.
    clear - E. revert v E.
    induction (Z.to_nat i) as [|k IH]; intros [|x v] E; try discriminate.
    + simpl in E. now inversion E.
    + simpl in E. apply IH in E. exact E.
  - apply nth_error_None in E. lia.
Qed.

(** ** Floats *)

Section FloatFacts.
Context {F : Type} {FO : FloatOps F} {FS : FloatStrict F}.

Lemma fle_refl (x : F) : fle x x = true.
Proof. unfold fle. now rewrite flt_irrefl. Qed.

Lemma flt_fle (x y : F) : flt x y = true -> fle x y = true.
Proof. intros H. unfold fle. now rewrite (flt_asym _ _ H). Qed.

Lemma fmin_le_l (a b : F) : fle (fmin a b) a = true.
Proof.
  unfold fmin. destruct (flt b a) eqn:E.
  - now apply flt_fle.
  - apply fle_refl.
Qed.

Lemma fmin_le_r (a b : F) : fle (fmin a b) b = true.
Proof.
  unfold fmin. destruct (flt b a) eqn:E.
  - apply fle_refl.
  - unfold fle. now rewrite E.
Qed.
End FloatFacts.

Lemma fle_transitive {F : Type} {FO : FloatOps F} {FL : FloatOrder F}
    (x y z : F) :
  fle x y = true -> fle y z = true -> fle x z = true.
Proof.
  unfold fle. rewrite !negb_true_iff. intros. eapply fle_trans; eauto.
Qed.

Create HintDb floats.
#[export] Hint Resolve fle_refl flt_fle fmin_le_l fmin_le_r : floats.

Lemma Qltb_lt (x y : Q) : Qltb x y = true <-> (x < y)%Q.
Proof.
  unfold Qltb. rewrite negb_true_iff. split.
  - intros H. apply Qnot_le_lt. intros Hle.
    apply Qle_bool_iff in Hle. congruence.
  - intros H. destruct (Qle_bool y x) eqn:E; [|reflexivity].
    apply Qle_bool_iff in E. exfalso. eapply Qlt_not_le; eauto.
Qed.

Lemma Qltb_ge (x y : Q) : Qltb x y = false <-> (y <= x)%Q.
Proof.
  unfold Qltb. rewrite negb_false_iff. apply Qle_bool_iff.
Qed.

#[export] Instance Q_FloatStrict : FloatStrict Q.
Proof.
  split; simpl.
  - intros x. apply Qltb_ge. apply Qle_refl.
  - intros x y H. apply Qltb_lt in H. apply Qltb_ge. now apply Qlt_le_weak.
Qed.

#[export] Instance Q_FloatOrder : FloatOrder Q.
Proof.
  split; [exact Q_FloatStrict|]. simpl.
  intros x y z H1 H2. apply Qltb_ge in H1, H2. apply Qltb_ge.
  eapply Qle_trans; eauto.
Qed.

Lemma Q_times_minus_one (x : Q) : (x * inject_Z (-1))%Q = (- x)%Q.
Proof.
  destruct x as [p q]. unfold Qmult, Qopp, inject_Z. simpl.
  f_equal; [lia|apply Pos.mul_1_r].
Qed.

Lemma vscale_minus_one (v : Vector Q) : vscale v (-1) = map Qopp v.
Proof.
  unfold vscale. apply map_ext. intros x. simpl. apply Q_times_minus_one.
Qed.

(** ** Bounding volume and signed volume *)

Section Volumes.
Context {F : Type} {FO : FloatOps F} {EX : Externals F}.
Context {FS : FloatStrict F}.

(** C6.  The box cached by the constructor (and returned as it is by
    [boundingBox]) is a fresh non-tight box expanded to include: for
    Intersection one child box, whose extent has a squared norm not above
    that of either child box; for Difference the left child box; for
    Union and None the left and then the right child box, and it is
    marked tight exactly when both child boxes are tight. *)
Theorem C6_bounding_box
    (left_ right_ : Primitive.t F) (operation_ : BooleanOperation.t) :
  let node := CsgNode.CsgNode left_ right_ operation_ in
  let leftBox := Primitive.boundingBox left_ in
  let rightBox := Primitive.boundingBox right_ in
  let ext2 := fun b => squaredNorm (extent b) in
  CsgNode.boundingBox node = CsgNode.box node /\
  match operation_ with
  | BooleanOperation.Intersection =>
      exists chosen,
        (chosen = leftBox \/ chosen = rightBox) /\
        fle (ext2 chosen) (ext2 leftBox) = true /\
        fle (ext2 chosen) (ext2 rightBox) = true /\
        CsgNode.boundingBox node = expandToInclude (newBox false) chosen
  | BooleanOperation.Difference =>
      CsgNode.boundingBox node = expandToInclude (newBox false) leftBox
  | _ =>
      bounds (CsgNode.boundingBox node) =
        bounds (expandToInclude
                  (expandToInclude (newBox false) leftBox) rightBox) /\
      (isTight (CsgNode.boundingBox node) = true <->
       isTight leftBox = true /\ isTight rightBox = true)
  end.
Proof.
  intros node leftBox rightBox ext2. split; [reflexivity|].
  subst node. unfold CsgNode.boundingBox, CsgNode.CsgNode,
    CsgNode.computeBoundingBox.
  destruct operation_; simpl.
  - split; [reflexivity|]. apply andb_true_iff.
  - fold leftBox rightBox.
    destruct (flt (squaredNorm (extent leftBox))
                  (squaredNorm (extent rightBox))) eqn:E.
    + exists leftBox. repeat split; auto.
      * apply fle_refl.
      * now apply flt_fle.
    + exists rightBox. repeat split; auto.
      * unfold fle, ext2. now rewrite E.
      * apply fle_refl.
  - reflexivity.
  - split; [reflexivity|]. apply andb_true_iff.
Qed.

(** C10.  With a [maxFloat] that is not zero, the box volume used by
    [signedVolume] is [maxFloat] when the box has volume zero and the
    volume of the box otherwise, so it is never zero; the result is the
    minimum of that volume and: the smaller of the children's signed
    volumes for Intersection, the left child's for Difference, their sum
    for Union and None. *)
Theorem C10_signedVolume (node : CsgNode.t F) :
  feqb maxFloat (fofZ 0) = false ->
  let volLeft := Primitive.signedVolume (CsgNode.left node) in
  let volRight := Primitive.signedVolume (CsgNode.right node) in
  let boxVolume := CsgNode.boxVolume node in
  (feqb (volume (CsgNode.box node)) (fofZ 0) = true ->
   boxVolume = maxFloat) /\
  (feqb (volume (CsgNode.box node)) (fofZ 0) = false ->
   boxVolume = volume (CsgNode.box node)) /\
  feqb boxVolume (fofZ 0) = false /\
  CsgNode.signedVolume node =
    match CsgNode.operation node with
    | BooleanOperation.Intersection =>
        fmin boxVolume (fmin volLeft volRight)
    | BooleanOperation.Difference => fmin boxVolume volLeft
    | _ => fmin boxVolume (fadd volLeft volRight)
    end.
Proof.
  intros Hmax volLeft volRight boxVolume. subst boxVolume.
  unfold CsgNode.signedVolume, CsgNode.boxVolume.
  destruct (feqb (volume (CsgNode.box node)) (fofZ 0)) eqn:E.
  - repeat split; try congruence.
    destruct (CsgNode.operation node); reflexivity.
  - repeat split; try congruence.
    destruct (CsgNode.operation node); reflexivity.
Qed.
End Volumes.

(** ** Closest point *)

Section ClosestPoint.
Context {F : Type} {FO : FloatOps F} {EX : Externals F}.

Local Abbreviation Exact := DistanceInfo.Exact.

(** With both children found, the query succeeds with the combination. *)
Lemma findClosestPoint_both_found (node : CsgNode.t F)
    (s sL sR : BoundingSphere F) (i iLeft iRight : Interaction F) :
  box_overlaps (CsgNode.box node) s = true ->
  Primitive.findClosestPoint (CsgNode.left node) s newInteraction
    = Ok (sL, iLeft, true) ->
  Primitive.findClosestPoint (CsgNode.right node) s newInteraction
    = Ok (sR, iRight, true) ->
  CsgNode.findClosestPoint node s i =
    CsgNode.shrink_r2 s
      (CsgNode.combine (CsgNode.operation node) s iLeft iRight).
Proof.
  intros Hbox HL HR. unfold CsgNode.findClosestPoint.
  rewrite Hbox, HL. simpl. rewrite HR. reflexivity.
Qed.

Lemma exact_iff (b : bool) :
  (if b then Exact else DistanceInfo.Bounded) = Exact <-> b = true.
Proof. destruct b; split; congruence. Qed.

Lemma both_exact_iff (iLeft iRight : Interaction F) :
  (if DistanceInfo.eqb (distanceInfo iLeft) Exact &&
      DistanceInfo.eqb (distanceInfo iRight) Exact
   then Exact else DistanceInfo.Bounded) = Exact <->
  distanceInfo iLeft = Exact /\ distanceInfo iRight = Exact.
Proof.
  rewrite exact_iff, andb_true_iff, !DistanceInfo_eqb_eq. reflexivity.
Qed.

(** C3, amended.  With both children found, the combined interaction is
    exact: for Union exactly when both children are exact and both
    signed distances are positive; for Intersection exactly when both are
    exact and both signed distances are negative; for Difference exactly
    when both are exact, the left signed distance is negative and the
    right one positive; for None it has the exactness of the child with
    the smaller distance. *)
Theorem C3_distanceInfo_of_combination (node : CsgNode.t F)
    (s sL sR : BoundingSphere F) (i iLeft iRight : Interaction F) :
  box_overlaps (CsgNode.box node) s = true ->
  Primitive.findClosestPoint (CsgNode.left node) s newInteraction
    = Ok (sL, iLeft, true) ->
  Primitive.findClosestPoint (CsgNode.right node) s newInteraction
    = Ok (sR, iRight, true) ->
  let sdLeft := signedDistance iLeft (c s) in
  let sdRight := signedDistance iRight (c s) in
  exists s' i',
    CsgNode.findClosestPoint node s i = Ok (s', i', true) /\
    match CsgNode.operation node with
    | BooleanOperation.Union =>
        distanceInfo i' = Exact <->
        distanceInfo iLeft = Exact /\ distanceInfo iRight = Exact /\
        flt (fofZ 0) sdLeft = true /\ flt (fofZ 0) sdRight = true
    | BooleanOperation.Intersection =>
        distanceInfo i' = Exact <->
        distanceInfo iLeft = Exact /\ distanceInfo iRight = Exact /\
        flt sdLeft (fofZ 0) = true /\ flt sdRight (fofZ 0) = true
    | BooleanOperation.Difference =>
        distanceInfo i' = Exact <->
        distanceInfo iLeft = Exact /\ distanceInfo iRight = Exact /\
        flt sdLeft (fofZ 0) = true /\ flt (fofZ 0) sdRight = true
    | BooleanOperation.None =>
        distanceInfo i' =
        distanceInfo (if flt (d iLeft) (d iRight) then iLeft else iRight)
    end.
Proof.
  intros Hbox HL HR sdLeft sdRight.
  rewrite (@findClosestPoint_both_found node s sL sR i iLeft iRight
             Hbox HL HR).
  unfold CsgNode.shrink_r2. eexists _, _. split; [reflexivity|].
  unfold CsgNode.combine. fold sdLeft sdRight.
  destruct (CsgNode.operation node); simpl; try reflexivity;
    rewrite exact_iff, !andb_true_iff, DistanceInfo_eqb_eq,
      both_exact_iff; tauto.
Qed.

Context {FS : FloatStrict F}.

(** Answer a goal of C4 with the candidate [sel] of value [v]; the
    comparison that selected it is the hypothesis [E]. *)
Ltac select sel v :=
  eexists _, _, sel, v; split; [reflexivity|];
  repeat split; auto with floats;
  match goal with
  | E : flt _ _ = false |- _ => unfold fle; now rewrite E
  end.

(** C4.  With both children found, the returned interaction has the
    distance, normal and sign of the selected candidate: for Union the
    child whose signed distance is not above either signed distance; for
    Intersection the child whose signed distance is not below either; for
    Difference the candidate of greatest value among the left child with
    [sdLeft] and the right child, normal and sign negated, with
    [-sdRight]; for None the child whose distance [d] is not above either,
    returned with its exactness as well. *)
Theorem C4_selected_interaction (node : CsgNode.t F)
    (s sL sR : BoundingSphere F) (i iLeft iRight : Interaction F) :
  box_overlaps (CsgNode.box node) s = true ->
  Primitive.findClosestPoint (CsgNode.left node) s newInteraction
    = Ok (sL, iLeft, true) ->
  Primitive.findClosestPoint (CsgNode.right node) s newInteraction
    = Ok (sR, iRight, true) ->
  let sdLeft := signedDistance iLeft (c s) in
  let sdRight := signedDistance iRight (c s) in
  let flipped :=
    set_sign (set_n iRight (vscale (n iRight) (-1))) (sign iRight * -1) in
  exists s' i' sel v,
    CsgNode.findClosestPoint node s i = Ok (s', i', true) /\
    d i' = d sel /\ n i' = n sel /\ sign i' = sign sel /\
    match CsgNode.operation node with
    | BooleanOperation.Union =>
        ((sel, v) = (iLeft, sdLeft) \/ (sel, v) = (iRight, sdRight)) /\
        fle v sdLeft = true /\ fle v sdRight = true
    | BooleanOperation.Intersection =>
        ((sel, v) = (iLeft, sdLeft) \/ (sel, v) = (iRight, sdRight)) /\
        fle sdLeft v = true /\ fle sdRight v = true
    | BooleanOperation.Difference =>
        ((sel, v) = (iLeft, sdLeft) \/
         (sel, v) = (flipped, fopp sdRight)) /\
        fle sdLeft v = true /\ fle (fopp sdRight) v = true
    | BooleanOperation.None =>
        ((sel, v) = (iLeft, d iLeft) \/ (sel, v) = (iRight, d iRight)) /\
        fle v (d iLeft) = true /\ fle v (d iRight) = true /\
        i' = sel
    end.
Proof.
  intros Hbox HL HR sdLeft sdRight flipped.
  rewrite (@findClosestPoint_both_found node s sL sR i iLeft iRight
             Hbox HL HR).
  unfold CsgNode.shrink_r2, CsgNode.combine.
  fold sdLeft sdRight. fold flipped.
  destruct (CsgNode.operation node); simpl.
  - destruct (flt sdLeft sdRight) eqn:E;
      [select iLeft sdLeft | select iRight sdRight].
  - destruct (flt sdRight sdLeft) eqn:E;
      [select iLeft sdLeft | select iRight sdRight].
  - destruct (flt (fopp sdRight) sdLeft) eqn:E;
      [select iLeft sdLeft | select flipped (fopp sdRight)].
  - destruct (flt (d iLeft) (d iRight)) eqn:E;
      [select iLeft (d iLeft) | select iRight (d iRight)].
Qed.

(** C8.  Whatever the children answer, a call returns; the squared
    radius after the call is not above the one before it, the centre is
    kept, a call that returns false leaves the sphere as it was, and a
    call that returns true sets [r2] to the minimum of its previous value
    and the squared distance of the returned interaction. *)
Theorem C8_r2_non_increasing (node : CsgNode.t F)
    (s : BoundingSphere F) (i : Interaction F)
    (resLeft resRight : BoundingSphere F * Interaction F * bool) :
  Primitive.findClosestPoint (CsgNode.left node) s newInteraction
    = Ok resLeft ->
  Primitive.findClosestPoint (CsgNode.right node) s newInteraction
    = Ok resRight ->
  exists s' i' found,
    CsgNode.findClosestPoint node s i = Ok (s', i', found) /\
    fle (r2 s') (r2 s) = true /\
    c s' = c s /\
    (found = false -> s' = s /\ i' = i) /\
    (found = true -> r2 s' = fmin (r2 s) (fmul (d i') (d i'))).
Proof.
  intros HL HR. unfold CsgNode.findClosestPoint.
  destruct resLeft as [[sL iL] fL], resRight as [[sR iR] fR].
  assert (Hkeep : exists s' i' found,
    @Ok (BoundingSphere F * Interaction F * bool) (s, i, false)
      = Ok (s', i', found) /\
    fle (r2 s') (r2 s) = true /\ c s' = c s /\
    (found = false -> s' = s /\ i' = i) /\
    (found = true -> r2 s' = fmin (r2 s) (fmul (d i') (d i')))).
  { exists s, i, false. repeat split; auto using fle_refl; discriminate. }
  assert (Hshrink : forall j, exists s' i' found,
    CsgNode.shrink_r2 s j = Ok (s', i', found) /\
    fle (r2 s') (r2 s) = true /\ c s' = c s /\
    (found = false -> s' = s /\ i' = i) /\
    (found = true -> r2 s' = fmin (r2 s) (fmul (d i') (d i')))).
  { intros j. unfold CsgNode.shrink_r2. eexists _, _, _.
    split; [reflexivity|]. simpl.
    repeat split; auto using fmin_le_l; discriminate. }
  destruct (box_overlaps (CsgNode.box node) s); [|exact Hkeep].
  rewrite HL. simpl.
  destruct (negb fL && _); [exact Hkeep|].
  rewrite HR. simpl.
  destruct (negb fL && negb fR); [exact Hkeep|].
  destruct (fL && fR); [apply Hshrink|].
  destruct fL.
  - destruct (BooleanOperation.eqb _ _); [exact Hkeep|apply Hshrink].
  - destruct fR; apply Hshrink.
Qed.
End ClosestPoint.

(** ** The merge loop of [computeInteractions] *)

Section MergeLoop.
Context {F : Type} {FO : FloatOps F}.
Variable operation : BooleanOperation.t.
Variables isLeft isRight : list (Interaction F).

Local Abbreviation hitsLeft := (CsgNode.hitsLeft isLeft).
Local Abbreviation hitsRight := (CsgNode.hitsRight isRight).
Local Abbreviation loop_cond := (CsgNode.loop_cond isLeft isRight).
Local Abbreviation loop_body :=
  (CsgNode.loop_body operation isLeft isRight).
Local Abbreviation while_loop :=
  (CsgNode.while_loop operation isLeft isRight).
Local Abbreviation in_bounds := (in_bounds isLeft isRight).
Local Abbreviation restLeft := (restLeft isLeft).
Local Abbreviation restRight := (restRight isRight).
Local Abbreviation remaining := (remaining isLeft isRight).
Local Abbreviation body_step := (body_step isLeft isRight).

Lemma skipn_all_nil (A : Type) (v : list A) (k : Z) :
  k = Z.of_nat (length v) -> skipn (Z.to_nat k) v = [].
Proof. intros ->. rewrite Nat2Z.id. apply skipn_all. Qed.

(** Within bounds the body reads no vector out of range: it breaks or
    performs one step. *)
Lemma loop_body_defined (st : CsgNode.LoopState F) :
  in_bounds st -> loop_cond st = true ->
  loop_body st = Ok CsgNode.Break \/
  exists st', loop_body st = Ok (CsgNode.Next st') /\ body_step st st'.
Proof.
  intros [HbL HbR] Hcond.
  unfold CsgNode.loop_body.
  destruct (_ && _); [now left|].
  destruct (_ && _); [now left|].
  right. unfold CsgNode.left_is_closer, CsgNode.loop_cond in *.
  destruct (Z.eqb_spec (CsgNode.nRight st) hitsRight) as [ER|ER].
  - (* the right list is used up: the left one is not *)
    destruct (Z.eqb_spec (CsgNode.nLeft st) hitsLeft) as [EL|EL];
      [discriminate|].
    destruct (@vec_at_in_range _ isLeft (CsgNode.nLeft st))
      as (l & Hl & Hskip); [unfold CsgNode.hitsLeft in *; lia|].
    simpl. rewrite Hl.
    destruct (CsgNode.addInteraction _ _ _); simpl;
      eexists; (split; [reflexivity|]);
      [ | rewrite <- (app_nil_r (CsgNode.is_ st)) at 1 ];
      eapply step_left; eauto;
      left; now apply skipn_all_nil.
  - destruct (@vec_at_in_range _ isRight (CsgNode.nRight st))
      as (r & Hr & HskipR); [unfold CsgNode.hitsRight in *; lia|].
    destruct (Z.eqb_spec (CsgNode.nLeft st) hitsLeft) as [EL|EL].
    + (* the left list is used up *)
      simpl. rewrite Hr.
      destruct (CsgNode.addInteraction _ _ _); simpl;
        eexists; (split; [reflexivity|]);
        [ | rewrite <- (app_nil_r (CsgNode.is_ st)) at 1 ];
        eapply step_right; eauto;
        try (left; now apply skipn_all_nil).
      right. eexists. split; [reflexivity|].
      now destruct (BooleanOperation.eqb _ _).
    + destruct (@vec_at_in_range _ isLeft (CsgNode.nLeft st))
        as (l & Hl & HskipL); [unfold CsgNode.hitsLeft in *; lia|].
      simpl. rewrite Hl, Hr. simpl.
      destruct (flt (d l) (d r)) eqn:Elt.
      * rewrite ?Hl.
        destruct (CsgNode.addInteraction _ _ _); simpl;
          eexists; (split; [reflexivity|]);
          [ | rewrite <- (app_nil_r (CsgNode.is_ st)) at 1 ];
          eapply step_left; eauto;
          right; eauto.
      * rewrite ?Hr.
        destruct (CsgNode.addInteraction _ _ _); simpl;
          eexists; (split; [reflexivity|]);
          [ | rewrite <- (app_nil_r (CsgNode.is_ st)) at 1 ];
          eapply step_right; eauto;
          try (right; now eauto).
        right. eexists. split; [reflexivity|].
        now destruct (BooleanOperation.eqb _ _).
Qed.

Lemma rest_cons_next (v : list (Interaction F)) (k : Z)
    (x : Interaction F) (tl : list (Interaction F)) :
  0 <= k -> skipn (Z.to_nat k) v = x :: tl ->
  skipn (Z.to_nat (k + 1)) v = tl /\ k + 1 <= Z.of_nat (length v).
Proof.
  intros Hk H.
  replace (Z.to_nat (k + 1)) with (1 + Z.to_nat k)%nat by lia.
  rewrite <- skipn_skipn, H. split; [reflexivity|].
  pose proof (length_skipn (Z.to_nat k) v) as HL.
  rewrite H in HL. simpl in HL. lia.
Qed.

(** A step keeps the indices in range and consumes one input element. *)
Lemma body_step_progress (st st' : CsgNode.LoopState F) :
  in_bounds st -> body_step st st' ->
  in_bounds st' /\ (remaining st' < remaining st)%nat /\
  ((exists l, restLeft st = l :: restLeft st' /\
              restRight st' = restRight st) \/
   (exists r, restRight st = r :: restRight st' /\
              restLeft st' = restLeft st)).
Proof.
  intros [HbL HbR] Hstep. unfold in_bounds, remaining.
  destruct Hstep as [l tl em Hl _ _ | r tr em Hr _ _].
  - destruct (@rest_cons_next isLeft _ l tl (proj1 HbL) Hl) as [Hn Hle].
    unfold restLeft, restRight, CsgNode.hitsLeft, CsgNode.hitsRight in *.
    simpl. rewrite Hn, Hl. simpl.
    split; [lia|]. split; [lia|].
    left. exists l. now split.
  - destruct (@rest_cons_next isRight _ r tr (proj1 HbR) Hr) as [Hn Hle].
    unfold restLeft, restRight, CsgNode.hitsLeft, CsgNode.hitsRight in *.
    simpl. rewrite Hn, Hr. simpl.
    split; [lia|]. split; [lia|].
    right. exists r. now split.
Qed.

Lemma loop_cond_remaining (st : CsgNode.LoopState F) :
  in_bounds st -> loop_cond st = true -> (0 < remaining st)%nat.
Proof.
  intros [HbL HbR] Hc. unfold CsgNode.loop_cond in Hc.
  unfold remaining, restLeft, restRight. rewrite !length_skipn.
  unfold CsgNode.hitsLeft, CsgNode.hitsRight in *.
  apply orb_true_iff in Hc.
  destruct Hc as [Hc|Hc]; apply negb_true_iff, Z.eqb_neq in Hc; lia.
Qed.

(** The loop, as a rule: an invariant of the steps holds at the exit,
    and the loop reaches its exit when it may run once for each input
    element left. *)
Lemma while_loop_rule (P : CsgNode.LoopState F -> Prop) :
  (forall st st', in_bounds st -> P st -> body_step st st' -> P st') ->
  forall (fuel : nat) (st : CsgNode.LoopState F),
    in_bounds st -> P st -> (remaining st <= fuel)%nat ->
    exists st', while_loop fuel st = Ok st' /\ P st' /\ in_bounds st'.
Proof.
  intros Hstep. induction fuel as [|fuel IH]; intros st Hb HP Hfuel.
  - simpl. destruct (CsgNode.loop_cond isLeft isRight st) eqn:Hc.
    + apply loop_cond_remaining in Hc; [lia|assumption].
    + eauto.
  - simpl. destruct (CsgNode.loop_cond isLeft isRight st) eqn:Hc;
      [|eauto].
    destruct (loop_body_defined Hb Hc) as [Hbr | (st' & Hnext & Hs)].
    + rewrite Hbr. simpl. eauto.
    + rewrite Hnext. simpl.
      destruct (body_step_progress Hb Hs) as (Hb' & Hlt & _).
      apply IH; eauto. lia.
Qed.

Lemma loop_init_in_bounds (is0 : list (Interaction F)) :
  in_bounds (CsgNode.loop_init operation isLeft isRight is0).
Proof.
  unfold in_bounds, CsgNode.loop_init, CsgNode.hitsLeft,
    CsgNode.hitsRight. simpl. lia.
Qed.

Lemma loop_init_remaining (is0 : list (Interaction F)) :
  remaining (CsgNode.loop_init operation isLeft isRight is0)
  = (length isLeft + length isRight)%nat.
Proof. reflexivity. Qed.

(** [computeInteractions] returns: no vector is read out of range and
    the loop ends.  An invariant of the steps that holds at the loop's
    entry holds of the final state. *)
Lemma computeInteractions_rule (P : CsgNode.LoopState F -> Prop)
    (is0 : list (Interaction F)) :
  (forall st st', in_bounds st -> P st -> body_step st st' -> P st') ->
  P (CsgNode.loop_init operation isLeft isRight is0) ->
  exists st,
    CsgNode.computeInteractions operation isLeft isRight is0
      = Ok (CsgNode.is_ st) /\ P st.
Proof.
  intros Hstep Hinit. unfold CsgNode.computeInteractions.
  destruct (@while_loop_rule P Hstep (length isLeft + length isRight)
              (CsgNode.loop_init operation isLeft isRight is0))
    as (st & Hrun & HP & _).
  - apply loop_init_in_bounds.
  - exact Hinit.
  - rewrite loop_init_remaining. lia.
  - rewrite Hrun. simpl. eauto.
Qed.

Lemma computeInteractions_total (is0 : list (Interaction F)) :
  exists out,
    CsgNode.computeInteractions operation isLeft isRight is0 = Ok out.
Proof.
  destruct (@computeInteractions_rule (fun _ => True) is0)
    as (st & H & _); eauto.
Qed.
End MergeLoop.

(** ** Ascending order of the merged lists *)

Section Ordering.
Context {F : Type} {FO : FloatOps F} {FL : FloatOrder F}.

Lemma le_d_trans (a b e : Interaction F) :
  le_d a b -> le_d b e -> le_d a e.
Proof. unfold le_d. apply fle_transitive. Qed.

Lemma ascending_StronglySorted (l : list (Interaction F)) :
  ascending l = true <-> StronglySorted le_d l.
Proof.
  split.
  - induction l as [|a [|b l] IH]; intros H.
    + constructor.
    + repeat constructor.
    + simpl in H. apply andb_true_iff in H as [Hab Htl].
      specialize (IH Htl). constructor; [exact IH|].
      constructor; [exact Hab|].
      apply StronglySorted_inv in IH as [_ Hb].
      eapply Forall_impl; [|exact Hb].
      intros x Hx. eapply le_d_trans; eauto.
  - induction 1 as [|a l Hs IH Hall]; [reflexivity|].
    destruct l as [|b l]; [reflexivity|].
    simpl. apply andb_true_iff. split; [|exact IH].
    now inversion Hall.
Qed.

Lemma StronglySorted_snoc (l : list (Interaction F)) (e : Interaction F) :
  StronglySorted le_d l -> Forall (fun x => le_d x e) l ->
  StronglySorted le_d (l ++ [e]).
Proof.
  induction 1 as [|a l Hs IH Hall]; intros He; simpl.
  - repeat constructor.
  - inversion He; subst. constructor; [auto|].
    apply Forall_app. split; [exact Hall|]. now constructor.
Qed.

Lemma StronglySorted_skipn (k : nat) (l : list (Interaction F)) :
  StronglySorted le_d l -> StronglySorted le_d (skipn k l).
Proof.
  revert l. induction k as [|k IH]; intros l H; [exact H|].
  destruct l as [|a l]; [exact H|].
  simpl. apply IH. now apply StronglySorted_inv in H.
Qed.

(** Everything that is below the head of a sorted list is below the
    whole list. *)
Lemma le_d_head_all (x a : Interaction F) (l : list (Interaction F)) :
  StronglySorted le_d (a :: l) -> le_d x a -> Forall (le_d x) (a :: l).
Proof.
  intros Hs Hxa. apply StronglySorted_inv in Hs as [_ Hall].
  constructor; [exact Hxa|].
  eapply Forall_impl; [|exact Hall].
  intros y Hy. eapply le_d_trans; eauto.
Qed.

Section Parity.
Variables isLeft isRight : list (Interaction F).
Hypothesis sortedLeft : StronglySorted le_d isLeft.
Hypothesis sortedRight : StronglySorted le_d isRight.

Lemma sorted_inv_step (st st' : CsgNode.LoopState F) :
  in_bounds isLeft isRight st -> sorted_inv isLeft isRight st ->
  body_step isLeft isRight st st' -> sorted_inv isLeft isRight st'.
Proof.
  intros Hb [Hsorted Hbelow] Hstep.
  destruct (body_step_progress Hb Hstep) as (_ & _ & Hrest).
  pose proof (StronglySorted_skipn
                (Z.to_nat (CsgNode.nLeft st)) sortedLeft) as HsL.
  pose proof (StronglySorted_skipn
                (Z.to_nat (CsgNode.nRight st)) sortedRight) as HsR.
  fold (restLeft isLeft st) in HsL. fold (restRight isRight st) in HsR.
  (* what was emitted before stays below the shorter rests *)
  assert (Hold : Forall (fun x => Forall (le_d x) (restLeft isLeft st') /\
                                  Forall (le_d x) (restRight isRight st'))
                        (CsgNode.is_ st)).
  { eapply Forall_impl; [|exact Hbelow]. intros x [HxL HxR].
    destruct Hrest as [(l & El & Er) | (r & Er & El)].
    - rewrite Er. rewrite El in HxL. split; [|exact HxR].
      now inversion HxL.
    - rewrite El. rewrite Er in HxR. split; [exact HxL|].
      now inversion HxR. }
  unfold sorted_inv.
  destruct Hstep as [l tl em Hl Hr Hem | r tr em Hr Hl Hem]; simpl.
  - (* a left element was consumed *)
    assert (Etl : restLeft isLeft
              (CsgNode.mkLoopState (CsgNode.nLeft st + 1)
                 (CsgNode.nRight st)
                 (negb (CsgNode.isLeftIntervalStart st))
                 (CsgNode.isRightIntervalStart st)
                 (CsgNode.counter st +
                  (if CsgNode.isLeftIntervalStart st then 1 else -1))
                 (CsgNode.is_ st ++ em)) = tl).
    { destruct Hrest as [(l0 & El & _) | (r0 & Er & El)].
      - rewrite Hl in El. now inversion El.
      - exfalso. rewrite Hl in El. simpl in El.
        apply (f_equal (@length _)) in El. simpl in El.
        unfold restLeft in El. simpl in El.
        destruct Hb as [HbL _].
        destruct (@rest_cons_next _ isLeft _ l tl (proj1 HbL) Hl)
          as [Hn _].
        rewrite Hn in El. lia. }
    destruct Hem as [-> | ->].
    + rewrite app_nil_r. split; [exact Hsorted|exact Hold].
    + split.
      * apply StronglySorted_snoc; [exact Hsorted|].
        eapply Forall_impl; [|exact Hbelow]. intros x [HxL _].
        rewrite Hl in HxL. now inversion HxL.
      * apply Forall_app. split; [exact Hold|].
        constructor; [|constructor]. split.
        -- rewrite Etl. rewrite Hl in HsL.
           now apply StronglySorted_inv in HsL.
        -- unfold restRight. simpl. fold (restRight isRight st).
           destruct Hr as [-> | (r & tr & Er & Hlt)]; [constructor|].
           rewrite Er in *. apply le_d_head_all; [exact HsR|].
           unfold le_d. now apply flt_fle.
  - (* a right element was consumed *)
    assert (Etr : restRight isRight
              (CsgNode.mkLoopState (CsgNode.nLeft st)
                 (CsgNode.nRight st + 1)
                 (CsgNode.isLeftIntervalStart st)
                 (negb (CsgNode.isRightIntervalStart st))
                 (CsgNode.counter st +
                  (if CsgNode.isRightIntervalStart st then 1 else -1))
                 (CsgNode.is_ st ++ em)) = tr).
    { destruct Hb as [_ HbR].
      destruct (@rest_cons_next _ isRight _ r tr (proj1 HbR) Hr)
        as [Hn _].
      exact Hn. }
    destruct Hem as [-> | (r' & -> & Hd)].
    + rewrite app_nil_r. split; [exact Hsorted|exact Hold].
    + assert (Hsame : forall y, le_d r y -> le_d r' y).
      { intros y. unfold le_d. now rewrite Hd. }
      split.
      * apply StronglySorted_snoc; [exact Hsorted|].
        eapply Forall_impl; [|exact Hbelow]. intros x [_ HxR].
        rewrite Hr in HxR. inversion HxR; subst.
        unfold le_d in *. now rewrite Hd.
      * apply Forall_app. split; [exact Hold|].
        constructor; [|constructor]. split.
        -- unfold restLeft. simpl. fold (restLeft isLeft st).
           destruct Hl as [-> | (l & tl & El & Hge)]; [constructor|].
           rewrite El in *.
           eapply Forall_impl; [exact Hsame|].
           apply le_d_head_all; [exact HsL|].
           unfold le_d, fle. now rewrite Hge.
        -- rewrite Etr. rewrite Hr in HsR.
           apply StronglySorted_inv in HsR as [_ Hall].
           eapply Forall_impl; [exact Hsame|exact Hall].
Qed.

(** The parity merge returns, and what it returns is in ascending
    order. *)
Lemma computeInteractions_sorted (operation : BooleanOperation.t) :
  exists out,
    CsgNode.computeInteractions operation isLeft isRight [] = Ok out /\
    StronglySorted le_d out.
Proof.
  destruct (@computeInteractions_rule _ _ operation isLeft isRight
              (sorted_inv isLeft isRight) [])
    as (st & Hrun & Hsorted & _).
  - intros st st'. apply sorted_inv_step.
  - split; simpl; constructor.
  - eauto.
Qed.

Lemma Forall_std_merge (P : Interaction F -> Prop)
    (comp : Interaction F -> Interaction F -> bool)
    (l1 l2 : list (Interaction F)) :
  Forall P l1 -> Forall P l2 -> Forall P (std_merge comp l1 l2).
Proof.
  revert l2. induction l1 as [|a1 l1 IH1]; intros l2 H1 H2.
  - now destruct l2.
  - induction l2 as [|a2 l2 IH2]; [exact H1|].
    simpl. destruct (comp a2 a1).
    + inversion H2; subst. constructor; auto.
    + inversion H1; subst. constructor; auto.
Qed.
End Parity.

(** [std::merge] of two ascending lists is ascending. *)
Lemma std_merge_sorted (l1 l2 : list (Interaction F)) :
  StronglySorted le_d l1 -> StronglySorted le_d l2 ->
  StronglySorted le_d (std_merge compareInteractions l1 l2).
Proof.
  revert l2. induction l1 as [|a1 l1 IH1]; intros l2 H1 H2.
  - now destruct l2.
  - induction l2 as [|a2 l2 IH2]; [exact H1|].
    simpl. unfold compareInteractions at 1.
    destruct (flt (d a2) (d a1)) eqn:E.
    + pose proof H2 as H2'.
      apply StronglySorted_inv in H2 as [H2s H2a].
      constructor; [auto|].
      change (Forall (le_d a2)
                (std_merge compareInteractions (a1 :: l1) l2)).
      apply Forall_std_merge; [|exact H2a].
      apply le_d_head_all; [exact H1|].
      unfold le_d. now apply flt_fle.
    + pose proof H1 as H1'.
      apply StronglySorted_inv in H1 as [H1s H1a].
      constructor; [auto|].
      apply Forall_std_merge; [exact H1a|].
      apply le_d_head_all; [exact H2|].
      unfold le_d, fle. now rewrite E.
Qed.
End Ordering.

(** ** Ray intersection *)

Section Intersect.
Context {F : Type} {FO : FloatOps F} {EX : Externals F}.

Lemma shrink_tMax_countHits (r : Ray F) (l : list (Interaction F)) :
  CsgNode.shrink_tMax r l true = Ok (r, l, Z.of_nat (length l)).
Proof. reflexivity. Qed.

Lemma shrink_tMax_nonempty (r : Ray F) (i0 : Interaction F)
    (l : list (Interaction F)) :
  CsgNode.shrink_tMax r (i0 :: l) false
  = Ok (set_tMax r (d i0), i0 :: l, Z.of_nat (length (i0 :: l))).
Proof. reflexivity. Qed.

(** With no interaction to read, [is[0]] is out of range. *)
Lemma shrink_tMax_empty (r : Ray F) :
  CsgNode.shrink_tMax r [] false = Undefined.
Proof. reflexivity. Qed.

Section Children.
Variable node : CsgNode.t F.
Variables (r rl rr : Ray F) (isLeft isRight : list (Interaction F)).
Variables hitsLeft hitsRight : Z.
Hypothesis queryLeft :
  Primitive.intersect (CsgNode.left node) r [] false true
  = Ok (rl, isLeft, hitsLeft).
Hypothesis queryRight :
  Primitive.intersect (CsgNode.right node) r [] false true
  = Ok (rr, isRight, hitsRight).

Local Abbreviation candidate :=
  (candidate isLeft isRight (CsgNode.operation node)).

(** A call either returns zero hits at once or ends in the final step
    (lines 188 to 190) on one of the candidate lists; which of the two
    does not depend on [countHits]. *)
Lemma intersect_shape (is0 : list (Interaction F))
    (checkOcclusion : bool) :
  (forall countHits,
      CsgNode.intersect node r is0 checkOcclusion countHits
      = Ok (r, [], 0)) \/
  (exists l, candidate l /\
     forall countHits,
       CsgNode.intersect node r is0 checkOcclusion countHits
       = CsgNode.shrink_tMax r l countHits).
Proof.
  unfold CsgNode.intersect.
  destruct (box_intersect (CsgNode.box node) r); [|now left].
  rewrite queryLeft. simpl.
  destruct (_ && _); [now left|].
  rewrite queryRight. simpl.
  destruct (_ && _); [now left|].
  destruct (_ && _).
  - destruct (BooleanOperation.eqb _ _).
    + right. eexists. split; [|reflexivity]. unfold candidate. auto.
    + destruct (computeInteractions_total (CsgNode.operation node)
                  isLeft isRight []) as [out Hout].
      right. exists out. split; [unfold candidate; auto 6|].
      intros countHits. now rewrite Hout.
  - destruct (hitsLeft >? 0).
    + destruct (BooleanOperation.eqb _ _); [now left|].
      right. eexists. split; [|reflexivity]. unfold candidate. auto.
    + destruct (hitsRight >? 0);
        right; eexists; (split; [|reflexivity]); unfold candidate; auto.
Qed.

(** The defect behind C2, C5 and C9, in general: when both children
    report hits and their combination is empty, a call that counts hits
    returns 0 and a call that does not reads [is[0]] in the empty
    vector. *)
Lemma intersect_empty_combination (is0 : list (Interaction F))
    (checkOcclusion : bool) :
  box_intersect (CsgNode.box node) r = true ->
  0 < hitsLeft -> 0 < hitsRight ->
  CsgNode.operation node <> BooleanOperation.None ->
  CsgNode.computeInteractions (CsgNode.operation node) isLeft isRight []
    = Ok [] ->
  CsgNode.intersect node r is0 checkOcclusion true = Ok (r, [], 0) /\
  CsgNode.intersect node r is0 checkOcclusion false = Undefined.
Proof.
  intros Hbox HhL HhR Hop Hempty. unfold CsgNode.intersect.
  rewrite Hbox, queryLeft. simpl.
  destruct (Z.eqb_spec hitsLeft 0); [lia|]. simpl.
  rewrite queryRight. simpl.
  destruct (Z.gtb_spec hitsLeft 0); [|lia].
  destruct (Z.gtb_spec hitsRight 0); [|lia]. simpl.
  destruct (BooleanOperation.eqb (CsgNode.operation node)
                                 BooleanOperation.None) eqn:E.
  - apply BooleanOperation_eqb_eq in E. contradiction.
  - rewrite Hempty. split; reflexivity.
Qed.

(** A call that counts hits always returns, with the ray as it was and
    the length of the list as its count: a node used as a child of
    another node answers as a child must. *)
Lemma intersect_countHits_defined (is0 : list (Interaction F))
    (checkOcclusion : bool) :
  exists out,
    CsgNode.intersect node r is0 checkOcclusion true
    = Ok (r, out, Z.of_nat (length out)).
Proof.
  destruct (intersect_shape is0 checkOcclusion)
    as [Hzero | (l & _ & Hshrink)].
  - exists []. now rewrite Hzero.
  - exists l. now rewrite Hshrink.
Qed.

Context {FL : FloatOrder F}.
Hypothesis sortedLeft : ascending isLeft = true.
Hypothesis sortedRight : ascending isRight = true.

Lemma candidate_sorted (l : list (Interaction F)) :
  candidate l -> StronglySorted le_d l.
Proof.
  pose proof (proj1 (ascending_StronglySorted _) sortedLeft) as HL.
  pose proof (proj1 (ascending_StronglySorted _) sortedRight) as HR.
  intros [-> | [-> | [-> | [-> | Hc]]]]; auto.
  - constructor.
  - now apply std_merge_sorted.
  - destruct (computeInteractions_sorted HL HR (CsgNode.operation node))
      as (out & Hout & Hs).
    congruence.
Qed.

(** C7.  When each child returns a list in ascending order of [d], a call
    that counts hits returns, and every list a call returns is in
    ascending order of [d], whatever the operation. *)
Theorem C7_intersect_sorted (is0 : list (Interaction F))
    (checkOcclusion countHits : bool) :
  (exists out,
      CsgNode.intersect node r is0 checkOcclusion true
      = Ok (r, out, Z.of_nat (length out)) /\ ascending out = true) /\
  (forall r' out hits,
      CsgNode.intersect node r is0 checkOcclusion countHits
      = Ok (r', out, hits) -> ascending out = true).
Proof.
  destruct (intersect_shape is0 checkOcclusion)
    as [Hzero | (l & Hcand & Hshrink)].
  - split.
    + exists []. now rewrite Hzero.
    + intros r' out hits. rewrite Hzero. now inversion 1.
  - apply candidate_sorted, ascending_StronglySorted in Hcand.
    split.
    + exists l. now rewrite Hshrink, shrink_tMax_countHits.
    + intros r' out hits. rewrite Hshrink.
      destruct countHits, l as [|i0 l]; simpl; try discriminate;
        now inversion 1.
Qed.

(** The frame of the calls that return.  The node is a value that
    [intersect] only reads.  A call that counts hits returns the ray as
    it was.  A call that does not count hits and finds the same,
    non-empty list returns a ray with the same origin and direction whose
    [tMax] is the distance of the first interaction, which is not above
    the distance of any interaction of the list; when it finds no hit and
    returns, the ray is as it was.  Nothing is said here of a call that
    finds no hit and does not return. *)
Lemma intersect_ray_frame (is0 : list (Interaction F))
    (checkOcclusion : bool) :
  exists out,
    CsgNode.intersect node r is0 checkOcclusion true
    = Ok (r, out, Z.of_nat (length out)) /\
    match out with
    | [] =>
        forall res,
          CsgNode.intersect node r is0 checkOcclusion false = Ok res ->
          res = (r, [], 0)
    | i0 :: _ =>
        exists r',
          CsgNode.intersect node r is0 checkOcclusion false
          = Ok (r', out, Z.of_nat (length out)) /\
          o r' = o r /\ dir r' = dir r /\ tMax r' = d i0 /\
          Forall (fun j => fle (d i0) (d j) = true) out
    end.
Proof.
  destruct (intersect_shape is0 checkOcclusion)
    as [Hzero | (l & Hcand & Hshrink)].
  - exists []. rewrite !Hzero. split; [reflexivity|].
    intros res. now inversion 1.
  - exists l. rewrite !Hshrink, shrink_tMax_countHits.
    split; [reflexivity|].
    apply candidate_sorted in Hcand.
    destruct l as [|i0 l].
    + rewrite shrink_tMax_empty. discriminate.
    + rewrite shrink_tMax_nonempty. eexists. split; [reflexivity|].
      repeat split.
      apply StronglySorted_inv in Hcand as [_ Hall].
      constructor; [apply fle_refl|exact Hall].
Qed.
End Children.
End Intersect.

(** ** The example of the specification: intervals 1..4 and 2..5 *)

Section SpecExample.
Context {EX : Externals Q}.
Local Open Scope Q_scope.

(** C1.  With a left child reporting crossings at distances 1 and 4 and a
    right child reporting crossings at distances 2 and 5,
    [computeInteractions] and [intersect] produce: for Union the left
    crossing at 1 and the right crossing at 5; for Intersection the right
    crossing at 2 and the left crossing at 4; for Difference the left
    crossing at 1 and the right crossing at 2 with its normal negated.  A
    call that does not count hits sets [tMax] to the first distance. *)
Theorem C1_parity_merge (node : CsgNode.t Q) (r rl rr : Ray Q)
    (a1 a4 b2 b5 : Interaction Q) (is0 : list (Interaction Q))
    (checkOcclusion countHits : bool) :
  box_intersect (CsgNode.box node) r = true ->
  Primitive.intersect (CsgNode.left node) r [] false true
    = Ok (rl, [a1; a4], 2%Z) ->
  Primitive.intersect (CsgNode.right node) r [] false true
    = Ok (rr, [b2; b5], 2%Z) ->
  d a1 = 1 -> d a4 = 4 -> d b2 = 2 -> d b5 = 5 ->
  CsgNode.operation node <> BooleanOperation.None ->
  let out :=
    match CsgNode.operation node with
    | BooleanOperation.Union => [a1; b5]
    | BooleanOperation.Intersection => [b2; a4]
    | _ => [a1; set_n b2 (map Qopp (n b2))]
    end in
  map d out =
    match CsgNode.operation node with
    | BooleanOperation.Union => [1; 5]
    | BooleanOperation.Intersection => [2; 4]
    | _ => [1; 2]
    end /\
  CsgNode.computeInteractions (CsgNode.operation node) [a1; a4] [b2; b5] []
    = Ok out /\
  CsgNode.intersect node r is0 checkOcclusion countHits
    = Ok (if countHits then r else set_tMax r (hd 0 (map d out)), out, 2%Z).
Proof.
  intros Hbox HL HR H1 H4 H2 H5 Hop out. subst out.
  unfold CsgNode.intersect. rewrite Hbox, HL, HR.
  destruct a1 as [d1 n1 s1 e1], a4 as [d4 n4 s4 e4],
           b2 as [d2 n2 s2 e2], b5 as [d5 n5 s5 e5].
  simpl in H1, H4, H2, H5. subst d1 d4 d2 d5.
  rewrite <- vscale_minus_one.
  destruct (CsgNode.operation node); try congruence;
    (split; [reflexivity|]); (split; [vm_compute; reflexivity|]);
    destruct countHits; vm_compute; reflexivity.
Qed.
End SpecExample.

(** A witness of C1: the solid intervals 1..4 and 2..5 on a line, united. *)
Lemma C1_parity_merge_witness :
  CsgNode.intersect
    (CsgNode.CsgNode (Line.solid 1 4) (Line.solid 2 5)
                     BooleanOperation.Union)
    (Line.ray 100) [] false false
  = Ok (set_tMax (Line.ray 100) 1%Q, [Line.hit 1 (-1); Line.hit 5 1], 2).
Proof.
  exact (proj2 (proj2
    (@C1_parity_merge Line.externals
       (CsgNode.CsgNode (Line.solid 1 4) (Line.solid 2 5)
                        BooleanOperation.Union)
       (Line.ray 100) (Line.ray 100) (Line.ray 100)
       (Line.hit 1 (-1)) (Line.hit 4 1) (Line.hit 2 (-1)) (Line.hit 5 1)
       [] false false
       eq_refl eq_refl eq_refl eq_refl eq_refl eq_refl eq_refl
       ltac:(discriminate)))).
Defined.

(** ** The read of [is[0]] on an empty result *)

(** C2, the code at a failing input.  The intersection of the disjoint
    solids 1..2 and 3..4: both children report hits, the combination is
    empty; a call that counts hits returns 0, and a call that does not
    reads [is[0]] in the empty vector. *)
Theorem C2_empty_combination_reads_out_of_range :
  let node := CsgNode.CsgNode (Line.solid 1 2) (Line.solid 3 4)
                              BooleanOperation.Intersection in
  box_intersect (CsgNode.box node) (Line.ray 100) = true /\
  CsgNode.computeInteractions BooleanOperation.Intersection
    [Line.hit 1 (-1); Line.hit 2 1] [Line.hit 3 (-1); Line.hit 4 1] []
    = Ok [] /\
  CsgNode.intersect node (Line.ray 100) [] false true
    = Ok (Line.ray 100, [], 0) /\
  CsgNode.intersect node (Line.ray 100) [] false false = Undefined.
Proof. vm_compute. repeat split. Qed.

(** C5, the code at a failing input.  The solid 1..2 minus the solid
    0..3 that covers it: both children report hits and nothing is left, a
    miss; a call that does not count hits reads [is[0]] in the empty
    vector instead of returning 0. *)
Theorem C5_miss_not_reported :
  let node := CsgNode.CsgNode (Line.solid 1 2) (Line.solid 0 3)
                              BooleanOperation.Difference in
  box_intersect (CsgNode.box node) (Line.ray 100) = true /\
  CsgNode.intersect node (Line.ray 100) [] false true
    = Ok (Line.ray 100, [], 0) /\
  CsgNode.intersect node (Line.ray 100) [] false false = Undefined.
Proof. vm_compute. repeat split. Qed.

(** C9, the code at a failing input.  On the intersection of the
    disjoint solids 1..2 and 3..4 no hit is found: the call that counts
    hits returns 0, an empty list and the ray as it was.  The call that
    does not count hits nevertheless reaches the final step (lines 188 to
    190) with the empty list and executes [r.tMax = is[0].d]: the value
    written to [tMax] is read out of range, so the call has no defined
    result and the ray is not kept as it was. *)
Theorem C9_tMax_written_without_a_hit :
  let node := CsgNode.CsgNode (Line.solid 1 2) (Line.solid 3 4)
                              BooleanOperation.Intersection in
  let r := Line.ray 100 in
  box_intersect (CsgNode.box node) r = true /\
  CsgNode.intersect node r [] false true = Ok (r, [], 0) /\
  CsgNode.intersect node r [] false false
    = CsgNode.shrink_tMax r [] false /\
  CsgNode.shrink_tMax r [] false = Undefined /\
  (forall res, CsgNode.intersect node r [] false false <> Ok res).
Proof.
  repeat split; try reflexivity.
  intros res. vm_compute. discriminate.
Qed.

(** ** Early exits of [intersect] *)

Section EarlyExits.
Context {F : Type} {FO : FloatOps F} {EX : Externals F}.

(** A ray that misses the box of the node hits nothing. *)
Lemma intersect_box_miss (node : CsgNode.t F) (r : Ray F)
    (is0 : list (Interaction F)) (checkOcclusion countHits : bool) :
  box_intersect (CsgNode.box node) r = false ->
  CsgNode.intersect node r is0 checkOcclusion countHits = Ok (r, [], 0).
Proof. intros H. unfold CsgNode.intersect. now rewrite H. Qed.

(** The paths on which a child reports no hit, for children that return
    the length of their list: no hit on the left gives 0 for Intersection
    and Difference; no hit on either side gives 0; hits on one side only
    give 0 for Intersection and that side's list for the operations that
    keep it. *)
Lemma intersect_early_exits (node : CsgNode.t F) (r rl rr : Ray F)
    (isLeft isRight is0 : list (Interaction F))
    (checkOcclusion countHits : bool) :
  box_intersect (CsgNode.box node) r = true ->
  Primitive.intersect (CsgNode.left node) r [] false true
    = Ok (rl, isLeft, Z.of_nat (length isLeft)) ->
  Primitive.intersect (CsgNode.right node) r [] false true
    = Ok (rr, isRight, Z.of_nat (length isRight)) ->
  let operation := CsgNode.operation node in
  let result := CsgNode.intersect node r is0 checkOcclusion countHits in
  let kept := fun l : list (Interaction F) =>
    Ok (if countHits then r else set_tMax r (d (hd newInteraction l)),
        l, Z.of_nat (length l)) in
  (isLeft = [] ->
   operation = BooleanOperation.Intersection \/
   operation = BooleanOperation.Difference -> result = Ok (r, [], 0)) /\
  (isLeft = [] -> isRight = [] -> result = Ok (r, [], 0)) /\
  (isLeft <> [] -> isRight = [] ->
   operation = BooleanOperation.Intersection -> result = Ok (r, [], 0)) /\
  (isLeft <> [] -> isRight = [] ->
   operation <> BooleanOperation.Intersection -> result = kept isLeft) /\
  (isLeft = [] -> isRight <> [] ->
   operation = BooleanOperation.Union \/
   operation = BooleanOperation.None -> result = kept isRight).
Proof.
  intros Hbox HL HR operation result kept.
  subst operation result kept. unfold CsgNode.intersect.
  rewrite Hbox, HL, HR. simpl.
  repeat split.
  - intros -> [-> | ->]; reflexivity.
  - intros -> ->. simpl. now destruct (CsgNode.operation node).
  - intros HnL -> ->. destruct isLeft; [congruence|reflexivity].
  - intros HnL -> Hop. destruct isLeft as [|i0 l]; [congruence|].
    destruct (CsgNode.operation node); try congruence;
      destruct countHits; reflexivity.
  - intros -> HnR [-> | ->];
      (destruct isRight as [|i0 l]; [congruence|]);
      destruct countHits; reflexivity.
Qed.
End EarlyExits.

(** ** The theorems at work on the line *)

Section OnTheLine.
Local Abbreviation Union := BooleanOperation.Union.
Local Abbreviation Exact := DistanceInfo.Exact.
Local Abbreviation Bounded := DistanceInfo.Bounded.
Local Abbreviation left1 := (Line.hit 1 (-1)).
Local Abbreviation right2 := (Line.hit 2 (-1)).

(** C3 as the specification words it fails on the union of the solids
    1..4 and 2..5 seen from the origin: both children are exact and both
    signed distances (1 and 2) are positive; the code answers [Exact], the
    specification's rule [Bounded]. *)
Lemma C3_union_outside_both_is_exact :
  let node := Line.overlapping Union in
  let s := Line.sphere 100 in
  Primitive.findClosestPoint (CsgNode.left node) s newInteraction
    = Ok (s, left1, true) /\
  Primitive.findClosestPoint (CsgNode.right node) s newInteraction
    = Ok (s, right2, true) /\
  signedDistance left1 (c s) = 1%Q /\
  signedDistance right2 (c s) = 2%Q /\
  exists s' i',
    CsgNode.findClosestPoint node s newInteraction = Ok (s', i', true) /\
    distanceInfo i' = Exact /\
    spec_distanceInfo Union left1 right2 1%Q 2%Q = Bounded /\
    distanceInfo i' <> spec_distanceInfo Union left1 right2 1%Q 2%Q.
Proof.
  vm_compute. repeat split. eexists _, _. repeat split. discriminate.
Qed.

Lemma C3_distanceInfo_of_combination_witness :
  exists s' i',
    CsgNode.findClosestPoint (Line.overlapping Union) (Line.sphere 100)
                             newInteraction = Ok (s', i', true) /\
    (distanceInfo i' = Exact <->
     distanceInfo left1 = Exact /\ distanceInfo right2 = Exact /\
     flt (fofZ 0) (signedDistance left1 [0%Q]) = true /\
     flt (fofZ 0) (signedDistance right2 [0%Q]) = true).
Proof.
  exact (@C3_distanceInfo_of_combination Q _ Line.externals
           (Line.overlapping Union) (Line.sphere 100)
           (Line.sphere 100) (Line.sphere 100)
           newInteraction left1 right2 eq_refl eq_refl eq_refl).
Defined.

Lemma C4_selected_interaction_witness :
  exists s' i' sel v,
    CsgNode.findClosestPoint (Line.overlapping Union) (Line.sphere 100)
                             newInteraction = Ok (s', i', true) /\
    d i' = d sel /\ n i' = n sel /\ sign i' = sign sel /\
    ((sel, v) = (left1, signedDistance left1 [0%Q]) \/
     (sel, v) = (right2, signedDistance right2 [0%Q])) /\
    fle v (signedDistance left1 [0%Q]) = true /\
    fle v (signedDistance right2 [0%Q]) = true.
Proof.
  exact (@C4_selected_interaction Q _ Line.externals Q_FloatStrict
           (Line.overlapping Union) (Line.sphere 100)
           (Line.sphere 100) (Line.sphere 100)
           newInteraction left1 right2 eq_refl eq_refl eq_refl).
Defined.

(** The boxes of three nodes on the line: the expansion of the fresh box
    leaves the bounds of the chosen child box, not marked tight. *)
Example Line_intersection_box :
  CsgNode.boundingBox
    (CsgNode.CsgNode (Line.solid 1 4) (Line.solid 2 6)
                     BooleanOperation.Intersection)
  = mkBoundingBox (1%Q, 4%Q) false.
Proof. reflexivity. Qed.

Example Line_difference_box :
  CsgNode.boundingBox
    (CsgNode.CsgNode (Line.solid 1 4) (Line.solid 2 6)
                     BooleanOperation.Difference)
  = mkBoundingBox (1%Q, 4%Q) false.
Proof. reflexivity. Qed.

Example Line_union_box :
  CsgNode.boundingBox
    (CsgNode.CsgNode (Line.solid 1 4) (Line.solid 2 6) Union)
  = mkBoundingBox (1%Q, 6%Q) true.
Proof. reflexivity. Qed.

Lemma C6_bounding_box_witness :
  let node := CsgNode.CsgNode (Line.solid 1 4) (Line.solid 2 6)
                              BooleanOperation.Intersection in
  CsgNode.boundingBox node = CsgNode.box node /\
  exists chosen,
    (chosen = Primitive.boundingBox (Line.solid 1 4) \/
     chosen = Primitive.boundingBox (Line.solid 2 6)) /\
    fle (squaredNorm (extent chosen))
        (squaredNorm (extent (Primitive.boundingBox (Line.solid 1 4))))
      = true /\
    fle (squaredNorm (extent chosen))
        (squaredNorm (extent (Primitive.boundingBox (Line.solid 2 6))))
      = true /\
    CsgNode.boundingBox node = expandToInclude (newBox false) chosen.
Proof.
  exact (@C6_bounding_box Q _ Line.externals Q_FloatStrict
           (Line.solid 1 4) (Line.solid 2 6)
           BooleanOperation.Intersection).
Defined.

(** Nodes nest: the union of the solids 1..4 and 2..5, minus the solid
    3..6, is crossed at 1 and at 3, where the normal of the subtracted
    solid is negated. *)
Example Line_nested_difference :
  CsgNode.intersect
    (CsgNode.CsgNode (CsgNode.asPrimitive (Line.overlapping Union))
                     (Line.solid 3 6) BooleanOperation.Difference)
    (Line.ray 100) [] false false
  = Ok (set_tMax (Line.ray 100) 1%Q, [Line.hit 1 (-1); Line.hit 3 1], 2).
Proof. reflexivity. Qed.

(** With no operation the two lists are merged as they are. *)
Example Line_none_merge :
  CsgNode.intersect (Line.overlapping BooleanOperation.None)
                    (Line.ray 100) [] false true
  = Ok (Line.ray 100,
        [Line.hit 1 (-1); Line.hit 2 (-1); Line.hit 4 1; Line.hit 5 1], 4).
Proof. reflexivity. Qed.

Lemma C7_intersect_sorted_witness :
  (exists out,
      CsgNode.intersect (Line.overlapping Union) (Line.ray 100) [] false true
      = Ok (Line.ray 100, out, Z.of_nat (length out)) /\
      ascending out = true) /\
  (forall r' out hits,
      CsgNode.intersect (Line.overlapping Union) (Line.ray 100) [] false
                        false = Ok (r', out, hits) ->
      ascending out = true).
Proof.
  exact (@C7_intersect_sorted Q _ Line.externals
           (Line.overlapping Union) (Line.ray 100) (Line.ray 100)
           (Line.ray 100) [Line.hit 1 (-1); Line.hit 4 1]
           [Line.hit 2 (-1); Line.hit 5 1] 2 2 eq_refl eq_refl
           Q_FloatOrder eq_refl eq_refl [] false false).
Defined.

Lemma C8_r2_non_increasing_witness :
  exists s' i' found,
    CsgNode.findClosestPoint (Line.overlapping Union) (Line.sphere 100)
                             newInteraction = Ok (s', i', found) /\
    fle (r2 s') (r2 (Line.sphere 100)) = true /\
    c s' = c (Line.sphere 100) /\
    (found = false -> s' = Line.sphere 100 /\ i' = newInteraction) /\
    (found = true ->
     r2 s' = fmin (r2 (Line.sphere 100)) (fmul (d i') (d i'))).
Proof.
  exact (@C8_r2_non_increasing Q _ Line.externals Q_FloatStrict
           (Line.overlapping Union) (Line.sphere 100) newInteraction
           (Line.sphere 100, left1, true) (Line.sphere 100, right2, true)
           eq_refl eq_refl).
Defined.

Example Line_union_ray_frame :
  exists out,
    CsgNode.intersect (Line.overlapping Union) (Line.ray 100) [] false true
    = Ok (Line.ray 100, out, Z.of_nat (length out)) /\
    match out with
    | [] =>
        forall res,
          CsgNode.intersect (Line.overlapping Union) (Line.ray 100) []
                            false false = Ok res ->
          res = (Line.ray 100, [], 0)
    | i0 :: _ =>
        exists r',
          CsgNode.intersect (Line.overlapping Union) (Line.ray 100) []
                            false false
          = Ok (r', out, Z.of_nat (length out)) /\
          o r' = o (Line.ray 100) /\ dir r' = dir (Line.ray 100) /\
          tMax r' = d i0 /\
          Forall (fun j => fle (d i0) (d j) = true) out
    end.
Proof.
  exact (@intersect_ray_frame Q _ Line.externals
           (Line.overlapping Union) (Line.ray 100) (Line.ray 100)
           (Line.ray 100) [Line.hit 1 (-1); Line.hit 4 1]
           [Line.hit 2 (-1); Line.hit 5 1] 2 2 eq_refl eq_refl
           Q_FloatOrder eq_refl eq_refl [] false).
Qed.

Lemma C10_signedVolume_witness :
  let node := CsgNode.CsgNode (Line.solid 3 3) (Line.solid 3 3) Union in
  let boxVolume := CsgNode.boxVolume node in
  (feqb (volume (CsgNode.box node)) (fofZ 0) = true ->
   boxVolume = maxFloat) /\
  (feqb (volume (CsgNode.box node)) (fofZ 0) = false ->
   boxVolume = volume (CsgNode.box node)) /\
  feqb boxVolume (fofZ 0) = false /\
  CsgNode.signedVolume node
  = fmin boxVolume (fadd (Primitive.signedVolume (Line.solid 3 3))
                         (Primitive.signedVolume (Line.solid 3 3))).
Proof.
  exact (@C10_signedVolume Q _ Line.externals
           (CsgNode.CsgNode (Line.solid 3 3) (Line.solid 3 3) Union)
           eq_refl).
Defined.
End OnTheLine.

(** * The meaning of the merge *)

(** ** The loop of [computeInteractions], step by step *)

Section ExactLoop.
Context {F : Type} {FO : FloatOps F}.
Variable operation : BooleanOperation.t.
Variables isLeft isRight : list (Interaction F).

Local Abbreviation loop_body :=
  (CsgNode.loop_body operation isLeft isRight).
Local Abbreviation while_loop :=
  (CsgNode.while_loop operation isLeft isRight).
Local Abbreviation in_bounds := (in_bounds isLeft isRight).
Local Abbreviation remaining := (remaining isLeft isRight).
Local Abbreviation exact_step := (exact_step operation isLeft isRight).
Local Abbreviation breaks := (breaks operation isLeft isRight).
Local Abbreviation at_exit := (at_exit operation isLeft isRight).

Lemma loop_body_breaks (st : CsgNode.LoopState F) :
  breaks st = true -> loop_body st = Ok CsgNode.Break.
Proof.
  unfold breaks, CsgNode.loop_body, is_difference.
  intros H. destruct (_ && _); [reflexivity|].
  simpl in H. now rewrite H.
Qed.

Lemma loop_body_after_left (st : CsgNode.LoopState F) (l : Interaction F) :
  breaks st = false ->
  CsgNode.left_is_closer isLeft isRight st = Ok true ->
  vec_at isLeft (CsgNode.nLeft st) = Ok l ->
  loop_body st = Ok (CsgNode.Next (after_left operation st l)).
Proof.
  unfold breaks, CsgNode.loop_body, is_difference.
  intros Hbr Hcl Hl. apply orb_false_iff in Hbr as [-> ->].
  rewrite Hcl, Hl. unfold after_left. simpl.
  destruct (CsgNode.addInteraction _ _ _); simpl;
    [reflexivity | now rewrite app_nil_r].
Qed.

Lemma loop_body_after_right (st : CsgNode.LoopState F)
    (r : Interaction F) :
  breaks st = false ->
  CsgNode.left_is_closer isLeft isRight st = Ok false ->
  vec_at isRight (CsgNode.nRight st) = Ok r ->
  loop_body st = Ok (CsgNode.Next (after_right operation st r)).
Proof.
  unfold breaks, CsgNode.loop_body, is_difference.
  intros Hbr Hcl Hr. apply orb_false_iff in Hbr as [-> ->].
  rewrite Hcl, Hr. unfold after_right, flipped, is_difference. simpl.
  destruct (CsgNode.addInteraction _ _ _); simpl;
    [reflexivity | now rewrite app_nil_r].
Qed.

(** Within bounds, a pass through the body takes a [break] or performs
    one exact step. *)
Lemma loop_body_exact (st : CsgNode.LoopState F) :
  in_bounds st -> CsgNode.loop_cond isLeft isRight st = true ->
  (breaks st = true /\ loop_body st = Ok CsgNode.Break) \/
  (exists st', loop_body st = Ok (CsgNode.Next st') /\ exact_step st st').
Proof.
  intros [HbL HbR] Hcond.
  destruct (breaks st) eqn:Hbr; [left; auto using loop_body_breaks|].
  right. unfold CsgNode.loop_cond in Hcond.
  unfold CsgNode.hitsLeft, CsgNode.hitsRight in *.
  destruct (Z.eqb_spec (CsgNode.nRight st) (Z.of_nat (length isRight)))
    as [ER|ER].
  - destruct (Z.eqb_spec (CsgNode.nLeft st) (Z.of_nat (length isLeft)))
      as [EL|EL]; [discriminate|].
    destruct (@vec_at_in_range _ isLeft (CsgNode.nLeft st))
      as (l & Hl & Hskip); [lia|].
    exists (after_left operation st l). split.
    + apply loop_body_after_left; auto.
      unfold CsgNode.left_is_closer, CsgNode.hitsRight.
      now rewrite ER, Z.eqb_refl.
    + eapply exact_left; [assumption|eassumption|].
      left. now apply skipn_all_nil.
  - destruct (@vec_at_in_range _ isRight (CsgNode.nRight st))
      as (r & Hr & HskipR); [lia|].
    destruct (Z.eqb_spec (CsgNode.nLeft st) (Z.of_nat (length isLeft)))
      as [EL|EL].
    + exists (after_right operation st r). split.
      * apply loop_body_after_right; auto.
        unfold CsgNode.left_is_closer, CsgNode.hitsRight, CsgNode.hitsLeft.
        destruct (Z.eqb_spec (CsgNode.nRight st)
                    (Z.of_nat (length isRight))); [contradiction|].
        now rewrite EL, Z.eqb_refl.
      * eapply exact_right; [assumption|eassumption|].
        left. now apply skipn_all_nil.
    + destruct (@vec_at_in_range _ isLeft (CsgNode.nLeft st))
        as (l & Hl & HskipL); [lia|].
      assert (Hcl : CsgNode.left_is_closer isLeft isRight st
                    = Ok (flt (d l) (d r))).
      { unfold CsgNode.left_is_closer, CsgNode.hitsRight, CsgNode.hitsLeft.
        destruct (Z.eqb_spec (CsgNode.nRight st)
                    (Z.of_nat (length isRight))); [contradiction|].
        destruct (Z.eqb_spec (CsgNode.nLeft st)
                    (Z.of_nat (length isLeft))); [contradiction|].
        simpl. now rewrite Hl, Hr. }
      destruct (flt (d l) (d r)) eqn:Elt.
      * exists (after_left operation st l). split.
        -- now apply loop_body_after_left.
        -- eapply exact_left; [assumption|eassumption|right; eauto].
      * exists (after_right operation st r). split.
        -- now apply loop_body_after_right.
        -- eapply exact_right; [assumption|eassumption|right; eauto].
Qed.

Lemma exact_step_body_step (st st' : CsgNode.LoopState F) :
  exact_step st st' -> body_step isLeft isRight st st'.
Proof.
  intros [l tl Hbr Hl Hr | r tr Hbr Hr Hl].
  - unfold after_left. eapply step_left; eauto.
    destruct (CsgNode.addInteraction _ _ _); auto.
  - unfold after_right. eapply step_right; eauto.
    destruct (CsgNode.addInteraction _ _ _); auto.
    right. eexists. split; [reflexivity|].
    unfold flipped. now destruct is_difference.
Qed.

(** The loop, as a rule on exact steps: an invariant of the steps holds
    of the state in which the loop is left. *)
Lemma while_loop_exact_rule (P : CsgNode.LoopState F -> Prop) :
  (forall st st', in_bounds st -> P st -> exact_step st st' -> P st') ->
  forall (fuel : nat) (st : CsgNode.LoopState F),
    in_bounds st -> P st -> (remaining st <= fuel)%nat ->
    exists st',
      while_loop fuel st = Ok st' /\ P st' /\ in_bounds st' /\
      at_exit st'.
Proof.
  intros Hstep. induction fuel as [|fuel IH]; intros st Hb HP Hfuel.
  - simpl. destruct (CsgNode.loop_cond isLeft isRight st) eqn:Hc.
    + apply loop_cond_remaining in Hc; [lia|assumption].
    + exists st. unfold at_exit. auto.
  - simpl. destruct (CsgNode.loop_cond isLeft isRight st) eqn:Hc.
    + destruct (loop_body_exact Hb Hc)
        as [[Hbr Hbreak] | (st' & Hnext & Hs)].
      * rewrite Hbreak. simpl. exists st. unfold at_exit. auto.
      * rewrite Hnext. simpl.
        destruct (body_step_progress Hb (exact_step_body_step Hs))
          as (Hb' & Hlt & _).
        apply IH; eauto. lia.
    + exists st. unfold at_exit. auto.
Qed.

Lemma computeInteractions_exact_rule (P : CsgNode.LoopState F -> Prop)
    (is0 : list (Interaction F)) :
  (forall st st', in_bounds st -> P st -> exact_step st st' -> P st') ->
  P (CsgNode.loop_init operation isLeft isRight is0) ->
  exists st,
    CsgNode.computeInteractions operation isLeft isRight is0
      = Ok (CsgNode.is_ st) /\ P st /\ in_bounds st /\ at_exit st.
Proof.
  intros Hstep Hinit. unfold CsgNode.computeInteractions.
  destruct (@while_loop_exact_rule P Hstep
              (length isLeft + length isRight)
              (CsgNode.loop_init operation isLeft isRight is0))
    as (st & Hrun & HP & Hb & Hex).
  - apply loop_init_in_bounds.
  - exact Hinit.
  - rewrite loop_init_remaining. lia.
  - rewrite Hrun. simpl. eauto.
Qed.
End ExactLoop.

(** ** Flags and counter *)

Lemma rem2_even (k : nat) : (Z.rem (Z.of_nat k) 2 =? 0) = Nat.even k.
Proof.
  rewrite Z.rem_mod_nonneg by lia. rewrite Zmod_even.
  replace (Z.even (Z.of_nat k)) with (Nat.even k).
  - now destruct (Nat.even k).
  - induction k as [|k IH]; [reflexivity|].
    rewrite Nat2Z.inj_succ, Z.even_succ, Nat.even_succ.
    rewrite <- Z.negb_even, <- Nat.negb_even. now rewrite IH.
Qed.

Lemma rem2_odd (k : nat) : (Z.rem (Z.of_nat k) 2 =? 1) = Nat.odd k.
Proof.
  rewrite <- Nat.negb_even, <- rem2_even.
  rewrite Z.rem_mod_nonneg by lia.
  pose proof (Z.mod_pos_bound (Z.of_nat k) 2 ltac:(lia)).
  destruct (Z.eqb_spec (Z.of_nat k mod 2) 1),
           (Z.eqb_spec (Z.of_nat k mod 2) 0); simpl; auto; lia.
Qed.

Section Flags.
Context {F : Type} {FO : FloatOps F}.
Variable operation : BooleanOperation.t.
Variables isLeft isRight : list (Interaction F).

Local Abbreviation within := (in_bounds isLeft isRight).
Local Abbreviation step := (exact_step operation isLeft isRight).
Local Abbreviation inv := (flags_inv operation isLeft isRight).
Local Abbreviation restL := (restLeft isLeft).
Local Abbreviation restR := (restRight isRight).

Lemma flags_inv_init (is0 : list (Interaction F)) :
  inv (CsgNode.loop_init operation isLeft isRight is0).
Proof.
  unfold flags_inv, CsgNode.loop_init, restLeft,
    restRight, CsgNode.hitsLeft, CsgNode.hitsRight,
    is_difference.
  simpl. repeat split.
  - apply rem2_even.
  - destruct (BooleanOperation.eqb _ _); simpl.
    + rewrite rem2_odd. symmetry. apply Nat.negb_even.
    + apply rem2_even.
  - destruct (Z.rem _ 2 =? 0), (Z.rem _ 2 =? _); reflexivity.
Qed.

(** What a step does to the inputs that are left. *)
Lemma exact_step_rests (st st' : CsgNode.LoopState F) :
  within st -> step st st' ->
  (exists l, st' = after_left operation st l /\
             restL st = l :: restL st' /\
             restR st' = restR st /\
             (restR st = [] \/
              exists r tr, restR st = r :: tr /\
                           flt (d l) (d r) = true)) \/
  (exists r, st' = after_right operation st r /\
             restR st = r :: restR st' /\
             restL st' = restL st /\
             (restL st = [] \/
              exists l tl, restL st = l :: tl /\
                           flt (d l) (d r) = false)).
Proof.
  intros [HbL HbR] [l tl Hbr Hl Hr | r tr Hbr Hr Hl].
  - left. exists l. split; [reflexivity|].
    destruct (@rest_cons_next _ isLeft _ l tl (proj1 HbL) Hl) as [Hn _].
    unfold restLeft, restRight in *. simpl.
    rewrite Hn. auto.
  - right. exists r. split; [reflexivity|].
    destruct (@rest_cons_next _ isRight _ r tr (proj1 HbR) Hr) as [Hn _].
    unfold restLeft, restRight in *. simpl.
    rewrite Hn. auto.
Qed.

Lemma flags_inv_step (st st' : CsgNode.LoopState F) :
  within st -> inv st -> step st st' -> inv st'.
Proof.
  intros Hb (HfL & HfR & Hc) Hstep.
  destruct (exact_step_rests Hb Hstep)
    as [(l & -> & El & Er & _) | (r & -> & Er & El & _)];
    unfold flags_inv.
  - assert (Hlen : length (restL st)
                   = S (length (restL (after_left operation st l))))
      by (now rewrite El at 1).
    rewrite Hlen, Nat.even_succ in HfL.
    rewrite Er. simpl. split; [|split].
    + rewrite HfL. apply Nat.negb_odd.
    + exact HfR.
    + rewrite Hc.
      destruct (CsgNode.isLeftIntervalStart st),
        (CsgNode.isRightIntervalStart st); reflexivity.
  - assert (Hlen : length (restR st)
                   = S (length (restR (after_right operation st r))))
      by (now rewrite Er at 1).
    rewrite Hlen, Nat.even_succ in HfR.
    rewrite El. simpl. split; [|split].
    + exact HfL.
    + rewrite HfR, <- Nat.negb_even.
      destruct (is_difference _),
        (Nat.even (length (restR (after_right operation st r))));
        reflexivity.
    + rewrite Hc.
      destruct (CsgNode.isLeftIntervalStart st),
        (CsgNode.isRightIntervalStart st); reflexivity.
Qed.

(** Under the invariant the counter is 0, 1 or 2. *)
Lemma flags_inv_counter (st : CsgNode.LoopState F) :
  inv st -> 0 <= CsgNode.counter st <= 2.
Proof.
  intros (_ & _ & Hc). rewrite Hc.
  destruct (CsgNode.isLeftIntervalStart st),
    (CsgNode.isRightIntervalStart st); simpl; lia.
Qed.

(** The combined solid at a state: the operation applied to "an odd
    number of left crossings is left" and "an odd number of right
    crossings is left". *)
Lemma flags_inv_engaged (st : CsgNode.LoopState F) :
  inv st ->
  apply_operation operation
    (Nat.odd (length (restL st))) (Nat.odd (length (restR st)))
  = if BooleanOperation.eqb operation BooleanOperation.Intersection ||
       BooleanOperation.eqb operation BooleanOperation.Difference
    then CsgNode.counter st =? 2 else 1 <=? CsgNode.counter st.
Proof.
  intros (HfL & HfR & Hc). rewrite Hc, HfL, HfR.
  rewrite <- !Nat.negb_even. unfold apply_operation, is_difference.
  destruct operation, (Nat.even (length (restL st))),
    (Nat.even (length (restR st))); reflexivity.
Qed.

(** An interaction is emitted exactly when the step changes whether the
    position is inside the combined solid. *)
Lemma emission_changes_side (c c' : Z) (e e' : bool) :
  (c' = c + 1 \/ c' = c - 1) -> 0 <= c <= 2 -> 0 <= c' <= 2 ->
  e = (if BooleanOperation.eqb operation BooleanOperation.Intersection ||
          BooleanOperation.eqb operation BooleanOperation.Difference
       then c =? 2 else 1 <=? c) ->
  e' = (if BooleanOperation.eqb operation BooleanOperation.Intersection ||
           BooleanOperation.eqb operation BooleanOperation.Difference
        then c' =? 2 else 1 <=? c') ->
  CsgNode.addInteraction operation c c' = xorb e e'.
Proof.
  intros Hstep Hc Hc' -> ->. unfold CsgNode.addInteraction.
  assert (Hcases : c = 0 \/ c = 1 \/ c = 2) by lia.
  destruct (_ || _); destruct Hcases as [-> | [-> | ->]];
    destruct Hstep as [-> | ->]; try reflexivity; lia.
Qed.
End Flags.

(** ** Counting the crossings that are emitted *)

Section Counting.
Context {F : Type} {FO : FloatOps F}.
Variable operation : BooleanOperation.t.
Variables isLeft isRight : list (Interaction F).

Local Abbreviation within := (in_bounds isLeft isRight).
Local Abbreviation step := (exact_step operation isLeft isRight).
Local Abbreviation inv := (flags_inv operation isLeft isRight).
Local Abbreviation restL := (restLeft isLeft).
Local Abbreviation restR := (restRight isRight).
Local Abbreviation op := (apply_operation operation).

(** The crossings that count: when the crossing a step takes counts, so
    does every crossing that is still to be taken. *)
Variable w : Interaction F -> bool.
Local Abbreviation count l := (length (filter w l)).

Hypothesis w_normal : forall x v, w (set_n x v) = w x.
Hypothesis w_left :
  forall st l tl, restL st = l :: tl ->
    (restR st = [] \/
     exists r tr, restR st = r :: tr /\ flt (d l) (d r) = true) ->
    w l = true ->
    filter w tl = tl /\ filter w (restR st) = restR st.
Hypothesis w_right :
  forall st r tr, restR st = r :: tr ->
    (restL st = [] \/
     exists l tl, restL st = l :: tl /\ flt (d l) (d r) = false) ->
    w r = true ->
    filter w tr = tr /\ filter w (restL st) = restL st.

Variable is0 : list (Interaction F).
Local Abbreviation counting := (counting_inv operation isLeft isRight w is0).

Lemma count_snoc (l : list (Interaction F)) (x : Interaction F) :
  count (l ++ [x]) = if w x then S (count l) else count l.
Proof.
  rewrite filter_app, length_app. simpl.
  destruct (w x); simpl; lia.
Qed.

Lemma w_flipped (r : Interaction F) : w (flipped operation r) = w r.
Proof. unfold flipped. destruct (is_difference _); auto. Qed.

Lemma counting_inv_init :
  counting (CsgNode.loop_init operation isLeft isRight is0).
Proof.
  split; [apply flags_inv_init|].
  exists []. split; [now rewrite app_nil_r|].
  unfold restLeft, restRight. simpl.
  now destruct (op _ _).
Qed.

Lemma counting_inv_step (st st' : CsgNode.LoopState F) :
  within st -> counting st -> step st st' -> counting st'.
Proof.
  intros Hb (Hinv & em & His & Hpar) Hstep.
  pose proof (flags_inv_step Hb Hinv Hstep) as Hinv'.
  split; [exact Hinv'|].
  pose proof (flags_inv_engaged Hinv) as He.
  pose proof (flags_inv_engaged Hinv') as He'.
  pose proof (flags_inv_counter Hinv) as Hc.
  pose proof (flags_inv_counter Hinv') as Hc'.
  destruct (exact_step_rests Hb Hstep)
    as [(l & Est & El & Er & Hsteps) | (r & Est & Er & El & Hsteps)].
  - (* a left crossing *)
    assert (Hadd : CsgNode.addInteraction operation (CsgNode.counter st)
                     (CsgNode.counter st')
                   = xorb (op (Nat.odd (length (restL st)))
                              (Nat.odd (length (restR st))))
                          (op (Nat.odd (length (restL st')))
                              (Nat.odd (length (restR st'))))).
    { apply emission_changes_side; auto.
      rewrite Est. simpl.
      destruct (CsgNode.isLeftIntervalStart st); lia. }
    exists (em ++ if CsgNode.addInteraction operation (CsgNode.counter st)
                       (CsgNode.counter st') then [l] else []).
    split.
    { rewrite Est at 1. unfold after_left. simpl.
      rewrite His, <- app_assoc. do 3 f_equal. now rewrite Est. }
    rewrite <- Hpar, Er, El. simpl filter.
    destruct (w l) eqn:Hw.
    + destruct (w_left st El Hsteps Hw) as [HtL HtR].
      rewrite HtL, HtR. simpl length.
      rewrite Hadd, El, Er. simpl length.
      destruct (op (Nat.odd (S (length (restL st'))))
                   (Nat.odd (length (restR st)))),
        (op (Nat.odd (length (restL st')))
            (Nat.odd (length (restR st)))); simpl;
        rewrite ?app_nil_r, ?count_snoc, ?Hw, ?Nat.odd_succ,
          <- ?Nat.negb_odd;
        now destruct (Nat.odd (length (filter w em))).
    + destruct (CsgNode.addInteraction _ _ _);
        rewrite ?app_nil_r, ?count_snoc, ?Hw; reflexivity.
  - (* a right crossing *)
    assert (Hadd : CsgNode.addInteraction operation (CsgNode.counter st)
                     (CsgNode.counter st')
                   = xorb (op (Nat.odd (length (restL st)))
                              (Nat.odd (length (restR st))))
                          (op (Nat.odd (length (restL st')))
                              (Nat.odd (length (restR st'))))).
    { apply emission_changes_side; auto.
      rewrite Est. simpl.
      destruct (CsgNode.isRightIntervalStart st); lia. }
    exists (em ++ if CsgNode.addInteraction operation (CsgNode.counter st)
                       (CsgNode.counter st')
                  then [flipped operation r] else []).
    split.
    { rewrite Est at 1. unfold after_right. simpl.
      rewrite His, <- app_assoc. do 3 f_equal. now rewrite Est. }
    rewrite <- Hpar, Er, El. simpl filter.
    destruct (w r) eqn:Hw.
    + destruct (w_right st Er Hsteps Hw) as [HtR HtL].
      rewrite HtL, HtR. simpl length.
      rewrite Hadd, El, Er. simpl length.
      destruct (op (Nat.odd (length (restL st)))
                   (Nat.odd (S (length (restR st'))))),
        (op (Nat.odd (length (restL st)))
            (Nat.odd (length (restR st')))); simpl;
        rewrite ?app_nil_r, ?count_snoc, ?w_flipped, ?Hw, ?Nat.odd_succ,
          <- ?Nat.negb_odd;
        now destruct (Nat.odd (length (filter w em))).
    + destruct (CsgNode.addInteraction _ _ _);
        rewrite ?app_nil_r, ?count_snoc, ?w_flipped, ?Hw; reflexivity.
Qed.

(** Where the loop is left, the crossings that remain add nothing. *)
Lemma at_exit_nothing_left (st : CsgNode.LoopState F) :
  within st -> at_exit operation isLeft isRight st ->
  op (Nat.odd (count (restL st))) (Nat.odd (count (restR st))) = false.
Proof.
  intros [HbL HbR] Hexit.
  assert (HL : CsgNode.nLeft st = CsgNode.hitsLeft isLeft ->
               restL st = []) by apply skipn_all_nil.
  assert (HR : CsgNode.nRight st = CsgNode.hitsRight isRight ->
               restR st = []) by apply skipn_all_nil.
  unfold at_exit, CsgNode.loop_cond, breaks, is_difference,
    apply_operation in *.
  destruct (Z.eqb_spec (CsgNode.nLeft st) (CsgNode.hitsLeft isLeft))
    as [EL|EL];
    destruct (Z.eqb_spec (CsgNode.nRight st) (CsgNode.hitsRight isRight))
    as [ER|ER];
    try rewrite (HL EL); try rewrite (HR ER); simpl in *;
    destruct operation; simpl in *;
    rewrite ?andb_false_r; try reflexivity;
    destruct Hexit; discriminate.
Qed.

(** The merge returns what it was given followed by the emitted
    crossings, and the number of those that count is odd exactly when
    the operation, applied to the parities of the inputs, says so. *)
Lemma computeInteractions_counting :
  exists emitted,
    CsgNode.computeInteractions operation isLeft isRight is0
      = Ok (is0 ++ emitted) /\
    Nat.odd (count emitted)
    = op (Nat.odd (count isLeft)) (Nat.odd (count isRight)).
Proof.
  destruct (@computeInteractions_exact_rule _ _ operation isLeft isRight
              counting is0 counting_inv_step counting_inv_init)
    as (st & Hrun & (_ & em & His & Hpar) & Hb & Hexit).
  exists em. rewrite Hrun, His. split; [reflexivity|].
  rewrite (at_exit_nothing_left Hb Hexit) in Hpar.
  rewrite <- Hpar. now destruct (Nat.odd _).
Qed.
End Counting.

(** ** What [computeInteractions] emits *)

Lemma filter_all {A : Type} (w : A -> bool) (l : list A) :
  Forall (fun y => w y = true) l -> filter w l = l.
Proof.
  induction 1 as [|y l Hy _ IH]; [reflexivity|].
  simpl. now rewrite Hy, IH.
Qed.

Lemma In_skipn {A : Type} (k : nat) (l : list A) (x : A) :
  In x (skipn k l) -> In x l.
Proof.
  intros H. rewrite <- (firstn_skipn k l). apply in_or_app. now right.
Qed.

Section Emitted.
Context {F : Type} {FO : FloatOps F}.
Variable operation : BooleanOperation.t.
Variables isLeft isRight is0 : list (Interaction F).

Local Abbreviation within := (in_bounds isLeft isRight).
Local Abbreviation step := (exact_step operation isLeft isRight).
Local Abbreviation provenance :=
  (provenance_inv operation isLeft isRight is0).

Lemma provenance_inv_step (st st' : CsgNode.LoopState F) :
  within st -> provenance st -> step st st' -> provenance st'.
Proof.
  intros Hb (em & His & Hstems & Hlen) Hstep.
  destruct (exact_step_rests Hb Hstep)
    as [(l & -> & El & Er & _) | (r & -> & Er & El & _)].
  - exists (em ++ if CsgNode.addInteraction operation (CsgNode.counter st)
                       (CsgNode.counter (after_left operation st l))
                  then [l] else []).
    unfold after_left at 1. simpl. rewrite His, <- app_assoc.
    split; [reflexivity|].
    assert (Hin : In l isLeft).
    { apply (@In_skipn _ (Z.to_nat (CsgNode.nLeft st))).
      fold (restLeft isLeft st). rewrite El. now left. }
    destruct (CsgNode.addInteraction _ _ _);
      rewrite ?app_nil_r, ?length_app; simpl; split; try lia; auto.
    apply Forall_app. split; [exact Hstems|].
    constructor; [now left|constructor].
  - exists (em ++ if CsgNode.addInteraction operation (CsgNode.counter st)
                       (CsgNode.counter (after_right operation st r))
                  then [flipped operation r] else []).
    unfold after_right at 1. simpl. rewrite His, <- app_assoc.
    split; [reflexivity|].
    assert (Hin : In r isRight).
    { apply (@In_skipn _ (Z.to_nat (CsgNode.nRight st))).
      fold (restRight isRight st). rewrite Er. now left. }
    destruct (CsgNode.addInteraction _ _ _);
      rewrite ?app_nil_r, ?length_app; simpl; split; try lia; auto.
    apply Forall_app. split; [exact Hstems|].
    constructor; [right; eauto|constructor].
Qed.

(** X1.  For every operation and every two lists, sorted or not,
    [computeInteractions] reads no vector out of range and its loop ends;
    it returns the vector it was given followed by at most one
    interaction for each input interaction, and each of them is a left
    interaction as it is or a right interaction, with its normal negated
    exactly when the operation is a difference. *)
Theorem computeInteractions_emits_inputs :
  exists emitted,
    CsgNode.computeInteractions operation isLeft isRight is0
      = Ok (is0 ++ emitted) /\
    (length emitted <= length isLeft + length isRight)%nat /\
    Forall (stems_from_inputs operation isLeft isRight) emitted.
Proof.
  destruct (@computeInteractions_exact_rule _ _ operation isLeft isRight
              provenance is0 provenance_inv_step)
    as (st & Hrun & (em & His & Hstems & Hlen) & [HbL HbR] & _).
  - exists []. simpl. rewrite app_nil_r. repeat split; [constructor|lia].
  - exists em. rewrite Hrun, His. repeat split; auto.
    unfold CsgNode.hitsLeft, CsgNode.hitsRight in *. lia.
Qed.

(** X2.  In every state the loop of [computeInteractions] goes through,
    the two indices are within their vectors, each flag tells the parity
    of the crossings left in its list (set for an even number, for an odd
    number in the right list of a difference), and the counter is the
    number of flags that are not set: it is 0, 1 or 2. *)
Theorem reachable_states_invariant (st : CsgNode.LoopState F) :
  reachable operation isLeft isRight is0 st ->
  within st /\ flags_inv operation isLeft isRight st /\
  0 <= CsgNode.counter st <= 2.
Proof.
  intros Hreach.
  assert (H : within st /\ flags_inv operation isLeft isRight st).
  { induction Hreach as [|st st' _ [Hb Hinv] Hcond Hnext].
    - split; [apply loop_init_in_bounds|apply flags_inv_init].
    - destruct (loop_body_exact operation Hb Hcond)
        as [[_ Hbreak] | (st'' & Hnext' & Hstep)]; [congruence|].
      assert (st'' = st') by congruence. subst st''.
      split.
      + now destruct (body_step_progress Hb
                        (exact_step_body_step Hstep)).
      + eapply flags_inv_step; eauto. }
  destruct H as [Hb Hinv].
  split; [exact Hb|split; [exact Hinv|exact (flags_inv_counter Hinv)]].
Qed.

(** X3.  The number of interactions [computeInteractions] emits is odd
    exactly when the operation says that the origin of the ray is inside
    the combination, a list with an odd number of crossings standing for
    a solid the origin is inside of: either list odd for a union, both
    for an intersection, the left one odd and the right one even for a
    difference. *)
Theorem computeInteractions_parity :
  exists emitted,
    CsgNode.computeInteractions operation isLeft isRight is0
      = Ok (is0 ++ emitted) /\
    Nat.odd (length emitted)
    = apply_operation operation (Nat.odd (length isLeft))
                                (Nat.odd (length isRight)).
Proof.
  assert (Hall : forall l : list (Interaction F),
             filter (fun _ => true) l = l).
  { intros l. apply filter_all, Forall_forall. auto. }
  destruct (@computeInteractions_counting _ _ operation isLeft isRight
              (fun _ => true)) with (is0 := is0)
    as (em & Hrun & Hpar); auto.
  exists em. split; [exact Hrun|].
  now rewrite !Hall in Hpar.
Qed.
End Emitted.

(** ** The solid the emitted crossings describe *)

Section Membership.
Context {F : Type} {FO : FloatOps F} {FL : FloatOrder F}.

(** Beyond a crossing that lies beyond [t], every crossing lies beyond
    [t]. *)
Lemma beyond_upward (t : F) (x y : Interaction F) :
  flt t (d x) = true -> le_d x y -> flt t (d y) = true.
Proof.
  intros Hx Hxy. destruct (flt t (d y)) eqn:Hy; [reflexivity|].
  unfold le_d, fle in Hxy. apply negb_true_iff in Hxy.
  pose proof (fle_trans _ _ _ Hxy Hy). congruence.
Qed.

Lemma beyond_all (t : F) (x : Interaction F) (l : list (Interaction F)) :
  flt t (d x) = true -> Forall (le_d x) l ->
  filter (fun y => flt t (d y)) l = l.
Proof.
  intros Hx Hall. apply filter_all.
  eapply Forall_impl; [|exact Hall].
  intros y. now apply beyond_upward.
Qed.

Variable operation : BooleanOperation.t.
Variables isLeft isRight is0 : list (Interaction F).
Hypothesis sortedLeft : ascending isLeft = true.
Hypothesis sortedRight : ascending isRight = true.

(** When the loop takes a left crossing that lies beyond [t], every
    crossing still to be taken lies beyond [t]. *)
Lemma beyond_left_step (t : F) (st : CsgNode.LoopState F)
    (l : Interaction F) (tl : list (Interaction F)) :
  restLeft isLeft st = l :: tl ->
  (restRight isRight st = [] \/
   exists r tr, restRight isRight st = r :: tr /\
                flt (d l) (d r) = true) ->
  flt t (d l) = true ->
  filter (fun y => flt t (d y)) tl = tl /\
  filter (fun y => flt t (d y)) (restRight isRight st)
  = restRight isRight st.
Proof.
  pose proof (proj1 (ascending_StronglySorted _) sortedLeft) as HL.
  pose proof (proj1 (ascending_StronglySorted _) sortedRight) as HR.
  intros El Hr Hl.
  pose proof (StronglySorted_skipn (Z.to_nat (CsgNode.nLeft st)) HL)
    as HsL.
  pose proof (StronglySorted_skipn (Z.to_nat (CsgNode.nRight st)) HR)
    as HsR.
  fold (restLeft isLeft st) in HsL. fold (restRight isRight st) in HsR.
  rewrite El in HsL. apply StronglySorted_inv in HsL as [_ HallL].
  split; [now apply (@beyond_all t l)|].
  destruct Hr as [-> | (r & tr & Er & Hlt)]; [reflexivity|].
  rewrite Er in *. apply (@beyond_all t l); [exact Hl|].
  apply le_d_head_all; [exact HsR|].
  unfold le_d. now apply flt_fle.
Qed.

(** The same for a right crossing. *)
Lemma beyond_right_step (t : F) (st : CsgNode.LoopState F)
    (r : Interaction F) (tr : list (Interaction F)) :
  restRight isRight st = r :: tr ->
  (restLeft isLeft st = [] \/
   exists l tl, restLeft isLeft st = l :: tl /\
                flt (d l) (d r) = false) ->
  flt t (d r) = true ->
  filter (fun y => flt t (d y)) tr = tr /\
  filter (fun y => flt t (d y)) (restLeft isLeft st)
  = restLeft isLeft st.
Proof.
  pose proof (proj1 (ascending_StronglySorted _) sortedLeft) as HL.
  pose proof (proj1 (ascending_StronglySorted _) sortedRight) as HR.
  intros Er Hl Hr.
  pose proof (StronglySorted_skipn (Z.to_nat (CsgNode.nLeft st)) HL)
    as HsL.
  pose proof (StronglySorted_skipn (Z.to_nat (CsgNode.nRight st)) HR)
    as HsR.
  fold (restLeft isLeft st) in HsL. fold (restRight isRight st) in HsR.
  rewrite Er in HsR. apply StronglySorted_inv in HsR as [_ HallR].
  split; [now apply (@beyond_all t r)|].
  destruct Hl as [-> | (l & tl & El & Hge)]; [reflexivity|].
  rewrite El in *. apply (@beyond_all t r); [exact Hr|].
  apply le_d_head_all; [exact HsL|].
  unfold le_d, fle. now rewrite Hge.
Qed.

(** X4.  For two lists in ascending order of [d] and every distance
    [t], the number of emitted crossings beyond [t] is odd exactly when
    the operation, applied to "an odd number of left crossings lies
    beyond [t]" and "an odd number of right crossings lies beyond [t]",
    holds: the emitted list describes the union, the intersection or the
    difference of the two solids. *)
Theorem computeInteractions_membership (t : F) :
  exists emitted,
    CsgNode.computeInteractions operation isLeft isRight is0
      = Ok (is0 ++ emitted) /\
    Nat.odd (beyond t emitted)
    = apply_operation operation (Nat.odd (beyond t isLeft))
                                (Nat.odd (beyond t isRight)).
Proof.
  apply (@computeInteractions_counting _ _ operation isLeft isRight
           (fun y => flt t (d y))).
  - reflexivity.
  - intros st l tl. apply beyond_left_step.
  - intros st r tr. apply beyond_right_step.
Qed.
End Membership.

(** ** The merge with an empty side *)

Lemma firstn_next {A : Type} (v : list A) (k : Z) (x : A) (tl : list A) :
  0 <= k -> skipn (Z.to_nat k) v = x :: tl ->
  firstn (Z.to_nat (k + 1)) v = firstn (Z.to_nat k) v ++ [x].
Proof.
  intros Hk. replace (Z.to_nat (k + 1)) with (S (Z.to_nat k)) by lia.
  generalize (Z.to_nat k). clear Hk k. intros k. revert v.
  induction k as [|k IH]; intros [|y v] H; try discriminate.
  - simpl in H. inversion H; subst. reflexivity.
  - simpl in H. simpl. f_equal. now apply IH.
Qed.

Section EmptySide.
Context {F : Type} {FO : FloatOps F}.
Variable operation : BooleanOperation.t.

(** A step that changes whether the position is inside the combined
    solid emits. *)
Lemma emission_exact (isLeft isRight : list (Interaction F))
    (st st' : CsgNode.LoopState F) :
  in_bounds isLeft isRight st ->
  flags_inv operation isLeft isRight st ->
  exact_step operation isLeft isRight st st' ->
  CsgNode.addInteraction operation (CsgNode.counter st)
                         (CsgNode.counter st')
  = xorb (apply_operation operation
            (Nat.odd (length (restLeft isLeft st)))
            (Nat.odd (length (restRight isRight st))))
         (apply_operation operation
            (Nat.odd (length (restLeft isLeft st')))
            (Nat.odd (length (restRight isRight st')))).
Proof.
  intros Hb Hinv Hstep.
  pose proof (flags_inv_step Hb Hinv Hstep) as Hinv'.
  pose proof (flags_inv_engaged Hinv) as He.
  pose proof (flags_inv_engaged Hinv') as He'.
  pose proof (flags_inv_counter Hinv) as Hc.
  pose proof (flags_inv_counter Hinv') as Hc'.
  apply emission_changes_side; auto.
  destruct (exact_step_rests Hb Hstep)
    as [(l & Est & _) | (r & Est & _)]; rewrite Est; simpl.
  - destruct (CsgNode.isLeftIntervalStart st); lia.
  - destruct (CsgNode.isRightIntervalStart st); lia.
Qed.

Lemma exact_step_no_break (isLeft isRight : list (Interaction F))
    (st st' : CsgNode.LoopState F) :
  exact_step operation isLeft isRight st st' ->
  breaks operation isLeft isRight st = false.
Proof. now destruct 1. Qed.

(** With no right crossing, the merge keeps every left crossing, and
    none for an intersection. *)
Lemma computeInteractions_right_empty
    (isLeft is0 : list (Interaction F)) :
  CsgNode.computeInteractions operation isLeft [] is0
  = Ok (is0 ++ match operation with
               | BooleanOperation.Intersection => []
               | _ => isLeft
               end).
Proof.
  destruct (@computeInteractions_exact_rule _ _ operation isLeft []
              (fun st =>
                 flags_inv operation isLeft [] st /\
                 CsgNode.nRight st = 0 /\
                 CsgNode.is_ st
                 = is0 ++ match operation with
                          | BooleanOperation.Intersection => []
                          | _ => firstn (Z.to_nat (CsgNode.nLeft st))
                                        isLeft
                          end) is0)
    as (st & Hrun & (_ & HnR & His) & [HbL _] & Hexit).
  - intros st st' Hb (Hinv & HnR & His) Hstep.
    pose proof (emission_exact Hb Hinv Hstep) as Hadd.
    pose proof (exact_step_no_break Hstep) as Hbr.
    split; [eapply flags_inv_step; eauto|].
    destruct (exact_step_rests Hb Hstep)
      as [(l & Est & El & Er & _) | (r & _ & Er & _)].
    + assert (HnR' : CsgNode.nRight st' = CsgNode.nRight st)
        by (rewrite Est; reflexivity).
      assert (HnL' : CsgNode.nLeft st' = CsgNode.nLeft st + 1)
        by (rewrite Est; reflexivity).
      assert (His' : CsgNode.is_ st'
                     = CsgNode.is_ st ++
                       if CsgNode.addInteraction operation
                            (CsgNode.counter st) (CsgNode.counter st')
                       then [l] else [])
        by (rewrite Est; reflexivity).
      split; [congruence|].
      rewrite Er, El in Hadd. unfold restRight in Hadd.
      rewrite skipn_nil in Hadd. simpl length in Hadd.
      rewrite Nat.odd_succ, <- Nat.negb_odd in Hadd.
      unfold breaks, is_difference, CsgNode.hitsRight in Hbr.
      rewrite HnR in Hbr. simpl in Hbr.
      rewrite His', Hadd, His, HnL'.
      destruct Hb as [HbL _].
      rewrite (firstn_next _ (proj1 HbL) El).
      unfold apply_operation.
      destruct operation; simpl in *; try discriminate;
        rewrite ?orb_false_r, ?andb_true_r;
        destruct (Nat.odd _); simpl; now rewrite <- ?app_assoc.
    + unfold restRight in Er. rewrite skipn_nil in Er. discriminate.
  - split; [apply flags_inv_init|]. split; [reflexivity|].
    destruct operation; simpl; now rewrite app_nil_r.
  - rewrite Hrun, His. do 2 f_equal.
    assert (Hall : CsgNode.nLeft st = CsgNode.hitsLeft isLeft ->
                   firstn (Z.to_nat (CsgNode.nLeft st)) isLeft = isLeft).
    { intros ->. unfold CsgNode.hitsLeft. rewrite Nat2Z.id.
      apply firstn_all. }
    unfold at_exit, CsgNode.loop_cond, breaks, is_difference,
      CsgNode.hitsRight in Hexit.
    rewrite HnR in Hexit. simpl in Hexit.
    destruct (Z.eqb_spec (CsgNode.nLeft st) (CsgNode.hitsLeft isLeft))
      as [EL|EL].
    + rewrite (Hall EL). reflexivity.
    + destruct operation; simpl in *; try reflexivity;
        destruct Hexit; discriminate.
Qed.

(** With no left crossing, a union keeps every right crossing; an
    intersection and a difference keep none. *)
Lemma computeInteractions_left_empty
    (isRight is0 : list (Interaction F)) :
  CsgNode.computeInteractions operation [] isRight is0
  = Ok (is0 ++ match operation with
               | BooleanOperation.Intersection
               | BooleanOperation.Difference => []
               | _ => isRight
               end).
Proof.
  destruct (@computeInteractions_exact_rule _ _ operation [] isRight
              (fun st =>
                 flags_inv operation [] isRight st /\
                 CsgNode.nLeft st = 0 /\
                 CsgNode.is_ st
                 = is0 ++ match operation with
                          | BooleanOperation.Intersection
                          | BooleanOperation.Difference => []
                          | _ => firstn (Z.to_nat (CsgNode.nRight st))
                                        isRight
                          end) is0)
    as (st & Hrun & (_ & HnL & His) & [_ HbR] & Hexit).
  - intros st st' Hb (Hinv & HnL & His) Hstep.
    pose proof (emission_exact Hb Hinv Hstep) as Hadd.
    pose proof (exact_step_no_break Hstep) as Hbr.
    split; [eapply flags_inv_step; eauto|].
    destruct (exact_step_rests Hb Hstep)
      as [(l & _ & El & _) | (r & Est & Er & El & _)].
    + unfold restLeft in El. rewrite skipn_nil in El. discriminate.
    + assert (HnL' : CsgNode.nLeft st' = CsgNode.nLeft st)
        by (rewrite Est; reflexivity).
      assert (HnR' : CsgNode.nRight st' = CsgNode.nRight st + 1)
        by (rewrite Est; reflexivity).
      assert (His' : CsgNode.is_ st'
                     = CsgNode.is_ st ++
                       if CsgNode.addInteraction operation
                            (CsgNode.counter st) (CsgNode.counter st')
                       then [flipped operation r] else [])
        by (rewrite Est; reflexivity).
      split; [congruence|].
      rewrite El, Er in Hadd. unfold restLeft in Hadd.
      rewrite skipn_nil in Hadd. simpl length in Hadd.
      rewrite Nat.odd_succ, <- Nat.negb_odd in Hadd.
      unfold breaks, is_difference, CsgNode.hitsLeft in Hbr.
      rewrite HnL in Hbr. simpl in Hbr.
      rewrite His', Hadd, His, HnR'.
      destruct Hb as [_ HbR].
      rewrite (firstn_next _ (proj1 HbR) Er).
      unfold apply_operation, flipped, is_difference.
      destruct operation; simpl in *; try discriminate;
        destruct (Nat.odd _); simpl; now rewrite <- ?app_assoc.
  - split; [apply flags_inv_init|]. split; [reflexivity|].
    destruct operation; simpl; now rewrite app_nil_r.
  - rewrite Hrun, His. do 2 f_equal.
    assert (Hall : CsgNode.nRight st = CsgNode.hitsRight isRight ->
                   firstn (Z.to_nat (CsgNode.nRight st)) isRight
                   = isRight).
    { intros ->. unfold CsgNode.hitsRight. rewrite Nat2Z.id.
      apply firstn_all. }
    unfold at_exit, CsgNode.loop_cond, breaks, is_difference,
      CsgNode.hitsLeft in Hexit.
    rewrite HnL in Hexit. simpl in Hexit.
    destruct (Z.eqb_spec (CsgNode.nRight st) (CsgNode.hitsRight isRight))
      as [ER|ER].
    + rewrite (Hall ER). reflexivity.
    + destruct operation; simpl in *; try reflexivity;
        destruct Hexit; discriminate.
Qed.
End EmptySide.

(** X5.  With one list empty the merge loop is the identity the
    operation asks for: a union keeps the other list whole, a difference
    keeps the left list and drops the right one, an intersection keeps
    nothing; no normal is changed. *)
Theorem computeInteractions_empty_side {F : Type} {FO : FloatOps F}
    (operation : BooleanOperation.t) (l is0 : list (Interaction F)) :
  CsgNode.computeInteractions operation l [] is0
  = Ok (is0 ++ match operation with
               | BooleanOperation.Intersection => []
               | _ => l
               end) /\
  CsgNode.computeInteractions operation [] l is0
  = Ok (is0 ++ match operation with
               | BooleanOperation.Intersection
               | BooleanOperation.Difference => []
               | _ => l
               end).
Proof.
  split.
  - apply computeInteractions_right_empty.
  - apply computeInteractions_left_empty.
Qed.

(** ** [intersect] and the merge *)

Lemma std_merge_nil_r {A : Type} (comp : A -> A -> bool) (l : list A) :
  std_merge comp l [] = l.
Proof. now destruct l. Qed.

Lemma std_merge_Permutation {A : Type} (comp : A -> A -> bool)
    (l1 l2 : list A) :
  Permutation (l1 ++ l2) (std_merge comp l1 l2).
Proof.
  revert l2. induction l1 as [|a1 l1 IH1]; intros l2.
  - now destruct l2.
  - induction l2 as [|a2 l2 IH2].
    + simpl. now rewrite app_nil_r.
    + simpl. destruct (comp a2 a1).
      * etransitivity; [|apply perm_skip, IH2].
        symmetry. apply (Permutation_middle (a1 :: l1) l2 a2).
      * apply perm_skip, IH1.
Qed.

Section Shortcuts.
Context {F : Type} {FO : FloatOps F} {EX : Externals F}.
Variable node : CsgNode.t F.
Variables (r rl rr : Ray F) (isLeft isRight : list (Interaction F)).
Hypothesis queryLeft :
  Primitive.intersect (CsgNode.left node) r [] false true
  = Ok (rl, isLeft, Z.of_nat (length isLeft)).
Hypothesis queryRight :
  Primitive.intersect (CsgNode.right node) r [] false true
  = Ok (rr, isRight, Z.of_nat (length isRight)).

(** What lines 141 to 186 leave in [is] when the ray meets the box:
    the plain merge for None, the result of the merge loop otherwise. *)
Lemma intersect_combined :
  box_intersect (CsgNode.box node) r = true ->
  exists out,
    (if BooleanOperation.eqb (CsgNode.operation node)
          BooleanOperation.None
     then std_merge compareInteractions isLeft isRight = out
     else CsgNode.computeInteractions (CsgNode.operation node)
            isLeft isRight [] = Ok out) /\
    forall is0 checkOcclusion countHits,
      CsgNode.intersect node r is0 checkOcclusion countHits
      = match out with
        | [] => if countHits || match isLeft, isRight with
                                | _ :: _, _ :: _ => false
                                | _, _ => true
                                end
                then Ok (r, [], 0) else Undefined
        | i0 :: _ =>
            Ok (if countHits then r else set_tMax r (d i0), out,
                Z.of_nat (length out))
        end.
Proof.
  intros Hbox. unfold CsgNode.intersect. rewrite Hbox, queryLeft. simpl.
  destruct isLeft as [|l0 tl].
  - (* no hit on the left *)
    pose proof (computeInteractions_left_empty (CsgNode.operation node)
                  isRight []) as Hmerge.
    simpl in Hmerge.
    destruct (CsgNode.operation node) eqn:Eop; simpl.
    + rewrite queryRight. simpl. exists isRight.
      split; [exact Hmerge|]. intros is0 co countHits.
      destruct isRight as [|r0 tr]; simpl;
        [now rewrite orb_true_r|now destruct countHits].
    + exists []. split; [exact Hmerge|]. intros.
      now rewrite orb_true_r.
    + exists []. split; [exact Hmerge|]. intros.
      now rewrite orb_true_r.
    + rewrite queryRight. simpl. exists isRight.
      split; [now destruct isRight|]. intros is0 co countHits.
      destruct isRight as [|r0 tr]; simpl;
        [now rewrite orb_true_r|now destruct countHits].
  - (* hits on the left *)
    rewrite queryRight. simpl.
    destruct isRight as [|r0 tr].
    + pose proof (computeInteractions_right_empty
                    (CsgNode.operation node) (l0 :: tl) []) as Hmerge.
      simpl in Hmerge.
      destruct (CsgNode.operation node) eqn:Eop; simpl.
      * exists (l0 :: tl). split; [exact Hmerge|]. intros.
        now destruct countHits.
      * exists []. split; [exact Hmerge|]. intros.
        now rewrite orb_true_r.
      * exists (l0 :: tl). split; [exact Hmerge|]. intros.
        now destruct countHits.
      * exists (l0 :: tl). split; [reflexivity|]. intros.
        now destruct countHits.
    + simpl.
      destruct (BooleanOperation.eqb (CsgNode.operation node)
                                     BooleanOperation.None) eqn:Eop.
      * eexists. split; [reflexivity|]. intros.
        simpl.
        destruct (compareInteractions r0 l0); now destruct countHits.
      * destruct (computeInteractions_total (CsgNode.operation node)
                    (l0 :: tl) (r0 :: tr) []) as [out Hout].
        exists out. split; [exact Hout|]. intros. rewrite Hout.
        destruct out, countHits; reflexivity.
Qed.
End Shortcuts.

Section IntersectMeaning.
Context {F : Type} {FO : FloatOps F} {EX : Externals F}.
Variable node : CsgNode.t F.
Variables (r rl rr : Ray F) (isLeft isRight : list (Interaction F)).
Hypothesis queryLeft :
  Primitive.intersect (CsgNode.left node) r [] false true
  = Ok (rl, isLeft, Z.of_nat (length isLeft)).
Hypothesis queryRight :
  Primitive.intersect (CsgNode.right node) r [] false true
  = Ok (rr, isRight, Z.of_nat (length isRight)).

Lemma operation_not_None :
  CsgNode.operation node <> BooleanOperation.None ->
  BooleanOperation.eqb (CsgNode.operation node) BooleanOperation.None
  = false.
Proof. now destruct (CsgNode.operation node). Qed.

(** X6.  For children that return the length of their list and a ray
    that meets the box, the early returns and the copies of one child's
    list in [intersect] (lines 149, 158 and 173 to 186) agree with the
    merge loop: for Union, Intersection and Difference a call that counts
    hits returns exactly what [computeInteractions] makes of the two
    lists, empty or not. *)
Theorem intersect_is_the_merge :
  box_intersect (CsgNode.box node) r = true ->
  CsgNode.operation node <> BooleanOperation.None ->
  exists out,
    CsgNode.computeInteractions (CsgNode.operation node) isLeft isRight []
    = Ok out /\
    forall is0 checkOcclusion,
      CsgNode.intersect node r is0 checkOcclusion true
      = Ok (r, out, Z.of_nat (length out)).
Proof.
  intros Hbox Hop.
  destruct (@intersect_combined _ _ _ node r rl rr isLeft isRight
              queryLeft queryRight Hbox)
    as (out & Hout & Hrun).
  rewrite (operation_not_None Hop) in Hout.
  exists out. split; [exact Hout|]. intros is0 co.
  rewrite Hrun. now destruct out.
Qed.

(** X8.  For the operation None a call that counts hits loses and
    invents nothing: its list is a rearrangement of the left list
    followed by the right list, and its count is the sum of the two
    counts. *)
Theorem intersect_none_keeps_all (is0 : list (Interaction F))
    (checkOcclusion : bool) :
  box_intersect (CsgNode.box node) r = true ->
  CsgNode.operation node = BooleanOperation.None ->
  exists out,
    CsgNode.intersect node r is0 checkOcclusion true
    = Ok (r, out, Z.of_nat (length isLeft) + Z.of_nat (length isRight)) /\
    Permutation (isLeft ++ isRight) out.
Proof.
  intros Hbox Hop.
  destruct (@intersect_combined _ _ _ node r rl rr isLeft isRight
              queryLeft queryRight Hbox)
    as (out & Hout & Hrun).
  rewrite Hop in Hout. simpl in Hout. subst out.
  pose proof (std_merge_Permutation compareInteractions isLeft isRight)
    as Hperm.
  exists (std_merge compareInteractions isLeft isRight).
  split; [|exact Hperm].
  rewrite Hrun.
  rewrite <- Nat2Z.inj_add, <- length_app,
    (Permutation_length Hperm).
  now destruct (std_merge _ _ _).
Qed.

(** X9.  For children that return the length of their list, a call
    that does not count hits reads [is[0]] out of range on one path only:
    the ray meets the box, both children report hits, the operation is
    not None and the merge loop leaves nothing.  On every other path it
    returns the list and the count of the call that counts hits. *)
Theorem intersect_out_of_range_iff (is0 : list (Interaction F))
    (checkOcclusion : bool) :
  let empty_combination :=
    box_intersect (CsgNode.box node) r = true /\
    isLeft <> [] /\ isRight <> [] /\
    CsgNode.operation node <> BooleanOperation.None /\
    CsgNode.computeInteractions (CsgNode.operation node) isLeft isRight []
    = Ok [] in
  (CsgNode.intersect node r is0 checkOcclusion false = Undefined
   <-> empty_combination) /\
  (~ empty_combination ->
   exists r' out,
     CsgNode.intersect node r is0 checkOcclusion false
     = Ok (r', out, Z.of_nat (length out)) /\
     CsgNode.intersect node r is0 checkOcclusion true
     = Ok (r, out, Z.of_nat (length out))).
Proof.
  intros empty_combination.
  assert (Hcases :
    (CsgNode.intersect node r is0 checkOcclusion false = Undefined /\
     empty_combination) \/
    (~ empty_combination /\
     exists r' out,
       CsgNode.intersect node r is0 checkOcclusion false
       = Ok (r', out, Z.of_nat (length out)) /\
       CsgNode.intersect node r is0 checkOcclusion true
       = Ok (r, out, Z.of_nat (length out)))).
  { subst empty_combination.
    destruct (box_intersect (CsgNode.box node) r) eqn:Hbox.
    - destruct (@intersect_combined _ _ _ node r rl rr isLeft isRight
                  queryLeft queryRight Hbox)
        as (out & Hout & Hrun).
      rewrite !Hrun.
      destruct out as [|i0 out].
      + destruct isLeft as [|l0 tl], isRight as [|r0 tr]; simpl;
          try (right; split;
               [intros (_ & HL & HR & _); congruence|];
               now exists r, []).
        left. split; [reflexivity|].
        destruct (BooleanOperation.eqb (CsgNode.operation node)
                                       BooleanOperation.None) eqn:Eop.
        * simpl in Hout. destruct (compareInteractions r0 l0);
            discriminate.
        * repeat split; try discriminate; [|exact Hout].
          intros E. rewrite E in Eop. discriminate.
      + right. split.
        * intros (_ & _ & _ & Hop & Hempty).
          rewrite (operation_not_None Hop) in Hout. congruence.
        * eexists _, _. split; reflexivity.
    - rewrite !(intersect_box_miss _ _ _ _ _ Hbox).
      right. split; [intros (H & _); discriminate|].
      now exists r, []. }
  split.
  - split.
    + intros Hundef. destruct Hcases as [[_ H] | [_ (r' & out & H & _)]];
        [exact H|congruence].
    + intros Hempty. destruct Hcases as [[H _] | [Hn _]];
        [exact H|contradiction].
  - intros Hn. destruct Hcases as [[_ H] | [_ H]];
      [contradiction|exact H].
Qed.

Context {FL : FloatOrder F}.
Hypothesis sortedLeft : ascending isLeft = true.
Hypothesis sortedRight : ascending isRight = true.

(** X7.  For children that return lists in ascending order of [d]
    with their lengths, a ray that meets the box and an operation other
    than None, the list of a call that counts hits describes the
    combined solid along the ray: for every distance [t], an odd number
    of its crossings lies beyond [t] exactly when the operation holds of
    "an odd number of left crossings lies beyond [t]" and "an odd number
    of right crossings lies beyond [t]". *)
Theorem intersect_membership (is0 : list (Interaction F))
    (checkOcclusion : bool) :
  box_intersect (CsgNode.box node) r = true ->
  CsgNode.operation node <> BooleanOperation.None ->
  exists out,
    CsgNode.intersect node r is0 checkOcclusion true
    = Ok (r, out, Z.of_nat (length out)) /\
    forall t : F,
      Nat.odd (beyond t out)
      = apply_operation (CsgNode.operation node)
          (Nat.odd (beyond t isLeft)) (Nat.odd (beyond t isRight)).
Proof.
  intros Hbox Hop.
  destruct (@intersect_combined _ _ _ node r rl rr isLeft isRight
              queryLeft queryRight Hbox)
    as (out & Hout & Hrun).
  rewrite (operation_not_None Hop) in Hout.
  exists out. split.
  - rewrite Hrun. now destruct out.
  - intros t.
    destruct (@computeInteractions_counting _ _ (CsgNode.operation node)
                isLeft isRight (fun y => flt t (d y)))
      with (is0 := @nil (Interaction F)) as (em & Hem & Hpar).
    + reflexivity.
    + intros st l tl. now apply beyond_left_step.
    + intros st x tx. now apply beyond_right_step.
    + simpl in Hem. unfold beyond. congruence.
Qed.
End IntersectMeaning.

(** ** Nodes as children *)

(** X10.  A node whose children answer every counting query with a
    list in ascending order and its length answers every counting query
    in the same way: what a node asks of its children it offers to its
    parent. *)
Theorem asPrimitive_answers_sorted {F : Type} {FO : FloatOps F}
    {EX : Externals F} {FL : FloatOrder F} (node : CsgNode.t F) :
  answers_sorted (CsgNode.left node) ->
  answers_sorted (CsgNode.right node) ->
  answers_sorted (CsgNode.asPrimitive node).
Proof.
  intros HL HR r.
  destruct (HL r) as (rl & isLeft & HqL & HsL).
  destruct (HR r) as (rr & isRight & HqR & HsR).
  simpl.
  destruct (intersect_shape node r HqL HqR [] false)
    as [Hzero | (l & Hcand & Hshrink)].
  - exists r, []. now rewrite Hzero.
  - exists r, l. rewrite Hshrink, shrink_tMax_countHits.
    split; [reflexivity|].
    apply ascending_StronglySorted.
    exact (candidate_sorted node HsL HsR Hcand).
Qed.

(** ** The result of [findClosestPoint] *)

(** X11.  [findClosestPoint] returns true exactly when the sphere
    overlaps the box and: both children found a point for Intersection,
    the left child found one for Difference, either child found one for
    Union and None.  When one child only found a point and the call
    returns true, the interaction of that child is returned as it is. *)
Theorem findClosestPoint_found {F : Type} {FO : FloatOps F}
    {EX : Externals F} (node : CsgNode.t F)
    (s sL sR : BoundingSphere F) (i iLeft iRight : Interaction F)
    (foundLeft foundRight : bool) :
  Primitive.findClosestPoint (CsgNode.left node) s newInteraction
    = Ok (sL, iLeft, foundLeft) ->
  Primitive.findClosestPoint (CsgNode.right node) s newInteraction
    = Ok (sR, iRight, foundRight) ->
  exists s' i',
    CsgNode.findClosestPoint node s i
    = Ok (s', i',
          box_overlaps (CsgNode.box node) s &&
          match CsgNode.operation node with
          | BooleanOperation.Intersection => foundLeft && foundRight
          | BooleanOperation.Difference => foundLeft
          | _ => foundLeft || foundRight
          end) /\
    (box_overlaps (CsgNode.box node) s = true ->
     foundLeft = true -> foundRight = false ->
     CsgNode.operation node <> BooleanOperation.Intersection ->
     i' = iLeft) /\
    (box_overlaps (CsgNode.box node) s = true ->
     foundLeft = false -> foundRight = true ->
     CsgNode.operation node = BooleanOperation.Union \/
     CsgNode.operation node = BooleanOperation.None ->
     i' = iRight).
Proof.
  intros HL HR. unfold CsgNode.findClosestPoint, CsgNode.shrink_r2.
  destruct (box_overlaps (CsgNode.box node) s).
  - rewrite HL. simpl.
    destruct foundLeft, foundRight, (CsgNode.operation node); simpl;
      rewrite ?HR; simpl; eexists _, _;
      (split; [reflexivity|]);
      split; intros; try reflexivity; try discriminate;
      try congruence; intuition discriminate.
  - eexists _, _. split; [reflexivity|]. split; discriminate.
Qed.

(** ** Bounds of [signedVolume] *)

(** X12.  The volume a node reports is an estimate from above that
    never exceeds the volume of its box (or [maxFloat] when the box has
    volume zero): it is not above that volume, and not above either
    child's volume for Intersection, the left child's for Difference, the
    sum of the children's for Union and None. *)
Theorem signedVolume_bounds {F : Type} {FO : FloatOps F}
    {EX : Externals F} {FL : FloatOrder F} (node : CsgNode.t F) :
  let volLeft := Primitive.signedVolume (CsgNode.left node) in
  let volRight := Primitive.signedVolume (CsgNode.right node) in
  fle (CsgNode.signedVolume node) (CsgNode.boxVolume node) = true /\
  match CsgNode.operation node with
  | BooleanOperation.Intersection =>
      fle (CsgNode.signedVolume node) volLeft = true /\
      fle (CsgNode.signedVolume node) volRight = true
  | BooleanOperation.Difference =>
      fle (CsgNode.signedVolume node) volLeft = true
  | _ =>
      fle (CsgNode.signedVolume node) (fadd volLeft volRight) = true
  end.
Proof.
  intros volLeft volRight. unfold CsgNode.signedVolume.
  destruct (CsgNode.operation node); simpl.
  - split; [apply fmin_le_l|apply fmin_le_r].
  - split; [apply fmin_le_l|]. split.
    + eapply fle_transitive; [apply fmin_le_r|apply fmin_le_l].
    + eapply fle_transitive; [apply fmin_le_r|apply fmin_le_r].
  - split; [apply fmin_le_l|apply fmin_le_r].
  - split; [apply fmin_le_l|apply fmin_le_r].
Qed.

(** ** The merge at work on the line *)

Section MergeOnTheLine.
Local Abbreviation Union := BooleanOperation.Union.
Local Abbreviation Intersection := BooleanOperation.Intersection.
Local Abbreviation Difference := BooleanOperation.Difference.
Local Abbreviation crossings14 := [Line.hit 1 (-1); Line.hit 4 1].
Local Abbreviation crossings25 := [Line.hit 2 (-1); Line.hit 5 1].

(** The state after the first round of the loop on the crossings of the
    solids 1..4 and 2..5, united: the crossing at 1 has been taken. *)
Lemma reachable_states_invariant_witness :
  let st := CsgNode.mkLoopState 1 0 false true 1 [Line.hit 1 (-1)] in
  in_bounds crossings14 crossings25 st /\
  flags_inv Union crossings14 crossings25 st /\
  0 <= CsgNode.counter st <= 2.
Proof.
  exact (@reachable_states_invariant Q _ Union crossings14 crossings25 []
           (CsgNode.mkLoopState 1 0 false true 1 [Line.hit 1 (-1)])
           (reach_next (reach_init Union crossings14 crossings25 [])
                       eq_refl eq_refl)).
Defined.

(** Beyond the distance 3 the difference of the solids 1..4 and 2..5 has
    no crossing left: the left solid has one, the right solid has one. *)
Lemma computeInteractions_membership_witness :
  exists emitted,
    CsgNode.computeInteractions Difference crossings14 crossings25 []
    = Ok ([] ++ emitted) /\
    Nat.odd (beyond 3%Q emitted)
    = apply_operation Difference (Nat.odd (beyond 3%Q crossings14))
                                 (Nat.odd (beyond 3%Q crossings25)).
Proof.
  exact (@computeInteractions_membership Q _ Q_FloatOrder Difference
           crossings14 crossings25 [] eq_refl eq_refl 3%Q).
Defined.

Lemma intersect_is_the_merge_witness :
  exists out,
    CsgNode.computeInteractions Difference crossings14 crossings25 []
    = Ok out /\
    forall is0 checkOcclusion,
      CsgNode.intersect (Line.overlapping Difference) (Line.ray 100) is0
                        checkOcclusion true
      = Ok (Line.ray 100, out, Z.of_nat (length out)).
Proof.
  exact (@intersect_is_the_merge Q _ Line.externals
           (Line.overlapping Difference) (Line.ray 100) (Line.ray 100)
           (Line.ray 100) crossings14 crossings25 eq_refl eq_refl
           eq_refl ltac:(discriminate)).
Defined.

Lemma intersect_membership_witness :
  exists out,
    CsgNode.intersect (Line.overlapping Intersection) (Line.ray 100) []
                      false true
    = Ok (Line.ray 100, out, Z.of_nat (length out)) /\
    forall t : Q,
      Nat.odd (beyond t out)
      = apply_operation Intersection (Nat.odd (beyond t crossings14))
                                     (Nat.odd (beyond t crossings25)).
Proof.
  exact (@intersect_membership Q _ Line.externals
           (Line.overlapping Intersection) (Line.ray 100) (Line.ray 100)
           (Line.ray 100) crossings14 crossings25 eq_refl eq_refl
           Q_FloatOrder eq_refl eq_refl [] false eq_refl
           ltac:(discriminate)).
Defined.

Lemma intersect_none_keeps_all_witness :
  exists out,
    CsgNode.intersect (Line.overlapping BooleanOperation.None)
                      (Line.ray 100) [] false true
    = Ok (Line.ray 100, out, 2 + 2) /\
    Permutation (crossings14 ++ crossings25) out.
Proof.
  exact (@intersect_none_keeps_all Q _ Line.externals
           (Line.overlapping BooleanOperation.None) (Line.ray 100)
           (Line.ray 100) (Line.ray 100) crossings14 crossings25
           eq_refl eq_refl [] false eq_refl eq_refl).
Defined.

(** The intersection of the disjoint solids 1..2 and 3..4. *)
Lemma intersect_out_of_range_iff_witness :
  let node := CsgNode.CsgNode (Line.solid 1 2) (Line.solid 3 4)
                              Intersection in
  let isLeft := [Line.hit 1 (-1); Line.hit 2 1] in
  let isRight := [Line.hit 3 (-1); Line.hit 4 1] in
  let empty_combination :=
    box_intersect (CsgNode.box node) (Line.ray 100) = true /\
    isLeft <> [] /\ isRight <> [] /\
    CsgNode.operation node <> BooleanOperation.None /\
    CsgNode.computeInteractions (CsgNode.operation node) isLeft isRight []
    = Ok [] in
  (CsgNode.intersect node (Line.ray 100) [] false false = Undefined
   <-> empty_combination) /\
  (~ empty_combination ->
   exists r' out,
     CsgNode.intersect node (Line.ray 100) [] false false
     = Ok (r', out, Z.of_nat (length out)) /\
     CsgNode.intersect node (Line.ray 100) [] false true
     = Ok (Line.ray 100, out, Z.of_nat (length out))).
Proof.
  exact (@intersect_out_of_range_iff Q _ Line.externals
           (CsgNode.CsgNode (Line.solid 1 2) (Line.solid 3 4) Intersection)
           (Line.ray 100) (Line.ray 100) (Line.ray 100)
           [Line.hit 1 (-1); Line.hit 2 1] [Line.hit 3 (-1); Line.hit 4 1]
           eq_refl eq_refl [] false).
Defined.

(** The solids of the line answer every ray with their two crossings. *)
Lemma solid_answers_sorted (a b : Z) :
  a <= b -> answers_sorted (Line.solid a b).
Proof.
  intros Hab r. exists r, [Line.hit a (-1); Line.hit b 1].
  split; [reflexivity|].
  simpl. rewrite andb_true_r. unfold fle. simpl.
  apply negb_true_iff, Qltb_ge. now rewrite <- Zle_Qle.
Qed.

Lemma asPrimitive_answers_sorted_witness :
  answers_sorted (CsgNode.asPrimitive (Line.overlapping Difference)).
Proof.
  exact (@asPrimitive_answers_sorted Q _ Line.externals Q_FloatOrder
           (Line.overlapping Difference)
           (@solid_answers_sorted 1 4 ltac:(lia))
           (@solid_answers_sorted 2 5 ltac:(lia))).
Defined.

(** The solid 1..4 united with a child that finds no closest point. *)
Lemma findClosestPoint_found_witness :
  let silent := Line.canned 2%Q 5%Q 3%Q 0 [] false newInteraction in
  let node := CsgNode.CsgNode (Line.solid 1 4) silent Union in
  let s := Line.sphere 100 in
  exists s' i',
    CsgNode.findClosestPoint node s newInteraction
    = Ok (s', i', box_overlaps (CsgNode.box node) s && (true || false)) /\
    (box_overlaps (CsgNode.box node) s = true ->
     true = true -> false = false ->
     CsgNode.operation node <> Intersection -> i' = Line.hit 1 (-1)) /\
    (box_overlaps (CsgNode.box node) s = true ->
     true = false -> false = true ->
     CsgNode.operation node = Union \/
     CsgNode.operation node = BooleanOperation.None ->
     i' = newInteraction).
Proof.
  exact (@findClosestPoint_found Q _ Line.externals
           (CsgNode.CsgNode (Line.solid 1 4)
              (Line.canned 2%Q 5%Q 3%Q 0 [] false newInteraction) Union)
           (Line.sphere 100) (Line.sphere 100) (Line.sphere 100)
           newInteraction (Line.hit 1 (-1)) newInteraction true false
           eq_refl eq_refl).
Defined.

Lemma signedVolume_bounds_witness :
  let node := Line.overlapping Intersection in
  fle (CsgNode.signedVolume node) (CsgNode.boxVolume node) = true /\
  fle (CsgNode.signedVolume node)
      (Primitive.signedVolume (Line.solid 1 4)) = true /\
  fle (CsgNode.signedVolume node)
      (Primitive.signedVolume (Line.solid 2 5)) = true.
Proof.
  exact (@signedVolume_bounds Q _ Line.externals Q_FloatOrder
           (Line.overlapping Intersection)).
Defined.
End MergeOnTheLine.
